(** * ordered_multimap_t: a std::list of entries indexed by a std::multimap

    Shallow embedding of [ordered_multimap.hpp].  The container keeps a
    doubly linked list of (key, value) entries and a multimap from keys to
    list iterators.  List iterators are modelled as handles (node
    identities) that stay the same when other nodes are inserted, erased or
    reordered; the multimap is modelled as the key-sorted sequence of
    (key, handle) pairs that an in-order walk of the tree visits.

    Operations whose C++ behaviour is undefined (dereferencing or advancing
    [end()], using the handle of an erased node) return [None]. *)

From Stdlib Require Import List Arith Bool Lia PeanoNat Permutation Sorted.
From Stdlib Require Import NArith ZArith.
From Stdlib Require String Ascii.
Import ListNotations.

Module ordered_multimap.

(** ** A small error monad for calls that may be undefined *)

Definition bind {A B : Type} (m : option A) (f : A -> option B) : option B :=
  match m with
  | Some a => f a
  | None => None
  end.

Notation "x <- m ;; k" := (bind m (fun x => k))
  (at level 61, m at next level, right associativity).
Notation "' p <- m ;; k" := (bind m (fun p => k))
  (at level 61, p pattern, m at next level, right associativity).

(** ** Keys: the Compare requirement of std::multimap (std::less<Key>) *)

Class KeyOrder (K : Type) : Type := {
  key_lt : K -> K -> bool;
  key_lt_irrefl : forall a, key_lt a a = false;
  key_lt_trans : forall a b c,
    key_lt a b = true -> key_lt b c = true -> key_lt a c = true;
  key_lt_total : forall a b,
    key_lt a b = false -> key_lt b a = false -> a = b
}.

(** Equivalence of keys as the multimap sees it: neither is less. *)
Definition key_eqb {K : Type} `{KeyOrder K} (a b : K) : bool :=
  negb (key_lt a b) && negb (key_lt b a).

(** ** Handles and iterators *)

Definition handle : Type := nat.

(** A [std::list] iterator: a node, or the past-the-end sentinel. *)
Inductive iterator : Type :=
| It (h : handle)
| End.

Definition iterator_eqb (a b : iterator) : bool :=
  match a, b with
  | It x, It y => x =? y
  | End, End => true
  | _, _ => false
  end.

Section Container.

Context {K V : Type} `{KeyOrder K}.

(** ** std::list<std::pair<Key, Value>> *)

Definition list_entry_t : Type := K * V.
Definition node : Type := handle * list_entry_t.

(** The nodes in sequence order, and the identity the next node gets. *)
Record list_t : Type := mk_list {
  nodes : list node;
  fresh : handle
}.

Definition list_empty : list_t := mk_list [] 0.

(** [list.clear()] *)
Definition list_clear (l : list_t) : list_t := mk_list [] (fresh l).

(** [list.size()] *)
Definition list_size (l : list_t) : nat := length (nodes l).

(** [list.begin()] *)
Definition list_begin (l : list_t) : iterator :=
  match nodes l with
  | [] => End
  | (h, _) :: _ => It h
  end.

(** [list.insert(list.end(), e)] *)
Definition list_push_back (e : list_entry_t) (l : list_t) : handle * list_t :=
  (fresh l, mk_list (nodes l ++ [(fresh l, e)]) (S (fresh l))).

Fixpoint lookup_node (h : handle) (ns : list node) : option list_entry_t :=
  match ns with
  | [] => None
  | (h', e) :: rest => if h =? h' then Some e else lookup_node h rest
  end.

(** [*it] *)
Definition list_deref (l : list_t) (it : iterator) : option list_entry_t :=
  match it with
  | End => None
  | It h => lookup_node h (nodes l)
  end.

Fixpoint node_after (h : handle) (ns : list node) : option iterator :=
  match ns with
  | [] => None
  | (h', _) :: rest =>
      if h =? h' then
        Some (match rest with
              | [] => End
              | (h'', _) :: _ => It h''
              end)
      else node_after h rest
  end.

(** [std::next(it)], [++it] *)
Definition list_next (l : list_t) (it : iterator) : option iterator :=
  match it with
  | End => None
  | It h => node_after h (nodes l)
  end.

Fixpoint last_node (ns : list node) : option iterator :=
  match ns with
  | [] => None
  | (h, _) :: rest =>
      match rest with
      | [] => Some (It h)
      | _ :: _ => last_node rest
      end
  end.

Fixpoint node_before (h : handle) (ns : list node) : option iterator :=
  match ns with
  | [] => None
  | (h1, _) :: rest =>
      if h =? h1 then None
      else match rest with
           | [] => None
           | (h2, _) :: _ =>
               if h =? h2 then Some (It h1) else node_before h rest
           end
  end.

(** [std::prev(it)], [--it] *)
Definition list_prev (l : list_t) (it : iterator) : option iterator :=
  match it with
  | End => last_node (nodes l)
  | It h => node_before h (nodes l)
  end.

Fixpoint remove_node (h : handle) (ns : list node) : option (list node) :=
  match ns with
  | [] => None
  | (h', e) :: rest =>
      if h =? h' then Some rest
      else rest' <- remove_node h rest ;; Some ((h', e) :: rest')
  end.

(** [list.erase(it)] for the iterator of node [h] *)
Definition list_erase (h : handle) (l : list_t) : option list_t :=
  ns <- remove_node h (nodes l) ;; Some (mk_list ns (fresh l)).

Fixpoint assign_node (h : handle) (v : V) (ns : list node) : option (list node) :=
  match ns with
  | [] => None
  | (h', (k, v')) :: rest =>
      if h =? h' then Some ((h', (k, v)) :: rest)
      else rest' <- assign_node h v rest ;; Some ((h', (k, v')) :: rest')
  end.

(** [it->second = v] for the iterator of node [h] *)
Definition list_assign (h : handle) (v : V) (l : list_t) : option list_t :=
  ns <- assign_node h v (nodes l) ;; Some (mk_list ns (fresh l)).

(** [list.sort(fun)]: a stable sort by the caller's comparator. *)
Definition sort_function_t : Type := list_entry_t -> list_entry_t -> bool.

Fixpoint sort_place (f : sort_function_t) (x : node) (ns : list node) : list node :=
  match ns with
  | [] => [x]
  | y :: rest =>
      if f (snd y) (snd x) then y :: sort_place f x rest else x :: y :: rest
  end.

Fixpoint sort_nodes (f : sort_function_t) (ns : list node) : list node :=
  match ns with
  | [] => []
  | x :: rest => sort_place f x (sort_nodes f rest)
  end.

Definition list_sort (f : sort_function_t) (l : list_t) : list_t :=
  mk_list (sort_nodes f (nodes l)) (fresh l).

Fixpoint position_of (h : handle) (ns : list node) : option nat :=
  match ns with
  | [] => None
  | (h', _) :: rest =>
      if h =? h' then Some 0 else i <- position_of h rest ;; Some (S i)
  end.

(** [std::distance(list.begin(), it)] *)
Definition list_distance (l : list_t) (it : iterator) : option nat :=
  match it with
  | End => Some (length (nodes l))
  | It h => position_of h (nodes l)
  end.

(** [std::advance(list.begin(), n)] for [n <= list.size()] *)
Definition list_advance (l : list_t) (n : nat) : iterator :=
  match nth_error (nodes l) n with
  | Some (h, _) => It h
  | None => End
  end.

(** ** std::multimap<Key, iterator>

    Table iterators are positions in the in-order sequence; [table.end()]
    is the length of the sequence. *)

Definition table_t : Type := list (K * handle).

(** [table.insert({k, h})]: after the last entry whose key is not greater. *)
Fixpoint table_insert (k : K) (h : handle) (t : table_t) : table_t :=
  match t with
  | [] => [(k, h)]
  | (k', h') :: rest =>
      if key_lt k k' then (k, h) :: t else (k', h') :: table_insert k h rest
  end.

(** [table.lower_bound(key)]: the first entry whose key is not less. *)
Fixpoint lower_bound (key : K) (t : table_t) : nat :=
  match t with
  | [] => 0
  | (k', _) :: rest => if key_lt k' key then S (lower_bound key rest) else 0
  end.

(** [table.upper_bound(key)]: the first entry whose key is greater. *)
Fixpoint upper_bound (key : K) (t : table_t) : nat :=
  match t with
  | [] => 0
  | (k', _) :: rest => if key_lt key k' then 0 else S (upper_bound key rest)
  end.

(** [table.equal_range(key)] *)
Definition table_equal_range (key : K) (t : table_t) : nat * nat :=
  (lower_bound key t, upper_bound key t).

(** [table.find(key)]: the lower bound, if its key is not greater; among
    several entries with the key this is the first, as in the red-black
    tree searches of libstdc++, libc++ and the MSVC library. *)
Definition table_find (key : K) (t : table_t) : nat :=
  let i := lower_bound key t in
  match nth_error t i with
  | Some (k', _) => if key_lt key k' then length t else i
  | None => length t
  end.

(** [it->second] for a table iterator *)
Definition table_handle (i : nat) (t : table_t) : option handle :=
  option_map snd (nth_error t i).

(** The entries a loop [for (it = first; it != last; ++it)] visits. *)
Definition table_slice (first last : nat) (t : table_t) : table_t :=
  firstn (last - first) (skipn first t).

(** [table.erase(it)] *)
Definition table_erase (i : nat) (t : table_t) : table_t :=
  firstn i t ++ skipn (S i) t.

(** [table.erase(first, last)] *)
Definition table_erase_range (first last : nat) (t : table_t) : table_t :=
  firstn first t ++ skipn last t.

(** ** The container *)

Record ordered_multimap_t : Type := mk_map {
  m_list : list_t;
  m_table : table_t
}.

(** [ordered_multimap_t()] *)
Definition empty : ordered_multimap_t := mk_map list_empty [].

(** [clear()] *)
Definition clear (s : ordered_multimap_t) : ordered_multimap_t :=
  mk_map (list_clear (m_list s)) [].

(** [size()] *)
Definition size (s : ordered_multimap_t) : nat := list_size (m_list s).

(** [begin()], [end()] *)
Definition begin (s : ordered_multimap_t) : iterator := list_begin (m_list s).
Definition end_ (s : ordered_multimap_t) : iterator := End.

(** [front()], [back()] *)
Definition front (s : ordered_multimap_t) : iterator := list_begin (m_list s).
Definition back (s : ordered_multimap_t) : option iterator :=
  list_prev (m_list s) End.

(** [keys()], [values()], [to_vector()] *)
Definition keys (s : ordered_multimap_t) : list K :=
  map (fun n => fst (snd n)) (nodes (m_list s)).
Definition values (s : ordered_multimap_t) : list V :=
  map (fun n => snd (snd n)) (nodes (m_list s)).
Definition to_vector (s : ordered_multimap_t) : list list_entry_t :=
  map snd (nodes (m_list s)).

(** The two statements every appending path runs:
    [it_list = list.insert(list.end(), e); table.insert({e.first, it_list})]. *)
Definition append_entry (e : list_entry_t) (s : ordered_multimap_t)
  : iterator * ordered_multimap_t :=
  let '(h, l) := list_push_back e (m_list s) in
  (It h, mk_map l (table_insert (fst e) h (m_table s))).

(** [insert(key, value)] *)
Definition insert (key : K) (value : V) (s : ordered_multimap_t)
  : iterator * ordered_multimap_t :=
  append_entry (key, value) s.

(** [emplace(key, args...)]: the value is built from [args] in place. *)
Definition emplace {Args : Type} (construct : Args -> V) (key : K) (args : Args)
  (s : ordered_multimap_t) : iterator * ordered_multimap_t :=
  append_entry (key, construct args) s.

(** The loop of [update]: [it->second->second = value] over the range. *)
Fixpoint update_loop (hs : list handle) (value : V) (l : list_t) : option list_t :=
  match hs with
  | [] => Some l
  | h :: rest => l' <- list_assign h value l ;; update_loop rest value l'
  end.

(** [update(key, value)] *)
Definition update (key : K) (value : V) (s : ordered_multimap_t)
  : option (iterator * ordered_multimap_t) :=
  let '(first, last) := table_equal_range key (m_table s) in
  if first =? last then Some (append_entry (key, value) s)
  else
    first_updated <- table_handle first (m_table s) ;;
    l <- update_loop (map snd (table_slice first last (m_table s))) value (m_list s) ;;
    Some (It first_updated, mk_map l (m_table s)).

(** [it->second = value] through an iterator the container handed out
    ([begin()], [find], [at], [equal_range], ... return mutable iterators). *)
Definition assign (it : iterator) (value : V) (s : ordered_multimap_t)
  : option ordered_multimap_t :=
  match it with
  | End => None
  | It h => l <- list_assign h value (m_list s) ;; Some (mk_map l (m_table s))
  end.

(** The loop of [erase(key)]. *)
Fixpoint erase_loop (hs : list handle) (next : iterator) (l : list_t)
  : option (iterator * list_t) :=
  match hs with
  | [] => Some (next, l)
  | h :: rest =>
      next' <- (if iterator_eqb next End then list_next l (It h) else Some next) ;;
      l' <- list_erase h l ;;
      erase_loop rest next' l'
  end.

(** [erase(key)] *)
Definition erase_key (key : K) (s : ordered_multimap_t)
  : option (iterator * ordered_multimap_t) :=
  let '(first, last) := table_equal_range key (m_table s) in
  if first =? last then Some (End, s)
  else
    '(next, l) <- erase_loop (map snd (table_slice first last (m_table s)))
                             End (m_list s) ;;
    Some (next, mk_map l (table_erase_range first last (m_table s))).

(** [erase(it_list)] *)
Definition erase_it (it_list : iterator) (s : ordered_multimap_t)
  : option (iterator * ordered_multimap_t) :=
  e <- list_deref (m_list s) it_list ;;
  let it_table := table_find (fst e) (m_table s) in
  if it_table =? length (m_table s) then Some (End, s)
  else
    it_list' <- list_next (m_list s) it_list ;;
    h <- table_handle it_table (m_table s) ;;
    l <- list_erase h (m_list s) ;;
    Some (it_list', mk_map l (table_erase it_table (m_table s))).

(** The loop of [erase(key, value)], from table position [i]. *)
Fixpoint erase_value_loop (value_eq : V -> V -> bool) (value : V)
  (hs : list handle) (i : nat) (s : ordered_multimap_t)
  : option (nat * ordered_multimap_t) :=
  match hs with
  | [] => Some (0, s)
  | h :: rest =>
      e <- list_deref (m_list s) (It h) ;;
      if value_eq (snd e) value then
        l <- list_erase h (m_list s) ;;
        Some (1, mk_map l (table_erase i (m_table s)))
      else erase_value_loop value_eq value rest (S i) s
  end.

(** [erase(key, value)]; [value_eq] is [Value]'s [operator==]. *)
Definition erase_key_value (value_eq : V -> V -> bool) (key : K) (value : V)
  (s : ordered_multimap_t) : option (nat * ordered_multimap_t) :=
  let '(first, last) := table_equal_range key (m_table s) in
  erase_value_loop value_eq value
    (map snd (table_slice first last (m_table s))) first s.

(** [at(position)] *)
Definition at_ (position : nat) (s : ordered_multimap_t) : iterator :=
  list_advance (m_list s) (Nat.min position (list_size (m_list s))).

(** [index_of(it)] *)
Definition index_of (it : iterator) (s : ordered_multimap_t) : option nat :=
  list_distance (m_list s) it.

(** [find(key)] *)
Definition find (key : K) (s : ordered_multimap_t) : option iterator :=
  let itr := table_find key (m_table s) in
  if itr =? length (m_table s) then Some End
  else h <- table_handle itr (m_table s) ;; Some (It h).

(** [has(key)] *)
Definition has (key : K) (s : ordered_multimap_t) : bool :=
  negb (table_find key (m_table s) =? length (m_table s)).

(** [count(key)] *)
Definition count (key : K) (s : ordered_multimap_t) : nat :=
  let '(first, last) := table_equal_range key (m_table s) in
  last - first.

(** [sort(fun)] *)
Definition sort (f : sort_function_t) (s : ordered_multimap_t) : ordered_multimap_t :=
  mk_map (list_sort f (m_list s)) (m_table s).

(** [equal_range(key)] *)
Definition equal_range (key : K) (s : ordered_multimap_t)
  : option (iterator * iterator) :=
  let '(first, last) := table_equal_range key (m_table s) in
  if first =? last then Some (End, End)
  else
    b <- table_handle first (m_table s) ;;
    e <- (if last =? length (m_table s) then list_next (m_list s) End
          else h <- table_handle last (m_table s) ;; list_next (m_list s) (It h)) ;;
    Some (It b, e).

(** [merge(std::move(other))] for a container [other] distinct from [this];
    returns the new [this] and the new [other]. *)
Definition merge (this other : ordered_multimap_t)
  : ordered_multimap_t * ordered_multimap_t :=
  (fold_left (fun s e => snd (append_entry e s)) (to_vector other) this,
   clear other).

(** The loop of [extract]. *)
Fixpoint extract_loop (hs : list handle) (result : list V) (l : list_t)
  : option (list V * list_t) :=
  match hs with
  | [] => Some (result, l)
  | h :: rest =>
      e <- list_deref l (It h) ;;
      l' <- list_erase h l ;;
      extract_loop rest (result ++ [snd e]) l'
  end.

(** [extract(key)] *)
Definition extract (key : K) (s : ordered_multimap_t)
  : option (list V * ordered_multimap_t) :=
  let '(first, last) := table_equal_range key (m_table s) in
  '(result, l) <- extract_loop (map snd (table_slice first last (m_table s)))
                               [] (m_list s) ;;
  Some (result, mk_map l (table_erase_range first last (m_table s))).

(** Copy construction and copy assignment: re-insert every entry. *)
Definition copy (other : ordered_multimap_t) : ordered_multimap_t :=
  fold_left (fun s e => snd (append_entry e s)) (to_vector other) empty.

(** [operator=(const ordered_multimap_t &other)] for [this != &other]:
    [this->clear()], then every entry of [other] is re-inserted.  (For
    [this == &other] the operator leaves the container as it is.) *)
Definition copy_assign (this other : ordered_multimap_t) : ordered_multimap_t :=
  fold_left (fun s e => snd (append_entry e s)) (to_vector other) (clear this).

(** Move construction and move assignment: the new owner and the source. *)
Definition move (other : ordered_multimap_t)
  : ordered_multimap_t * ordered_multimap_t :=
  (other, clear other).

(** ** Traversal *)

(** [for (it = first; it != last; ++it) visit(it)] *)
Fixpoint walk (fuel : nat) (l : list_t) (it last : iterator)
  : option (list list_entry_t) :=
  match fuel with
  | 0 => None
  | S fuel' =>
      if iterator_eqb it last then Some []
      else
        e <- list_deref l it ;;
        it' <- list_next l it ;;
        rest <- walk fuel' l it' last ;;
        Some (e :: rest)
  end.

(** [for (it = rbegin(); it != rend(); ++it) visit(it)], on the base
    iterators: a reverse iterator dereferences the node before its base. *)
Fixpoint walk_back (fuel : nat) (l : list_t) (base : iterator)
  : option (list list_entry_t) :=
  match fuel with
  | 0 => None
  | S fuel' =>
      if iterator_eqb base (list_begin l) then Some []
      else
        p <- list_prev l base ;;
        e <- list_deref l p ;;
        rest <- walk_back fuel' l p ;;
        Some (e :: rest)
  end.

(** The loop of test_erase_all_by_iterator:
    [it = begin(); while (it != end()) it = erase(it);] *)
Fixpoint erase_all (fuel : nat) (it : iterator) (s : ordered_multimap_t)
  : option ordered_multimap_t :=
  match fuel with
  | 0 => None
  | S fuel' =>
      if iterator_eqb it (end_ s) then Some s
      else '(it', s') <- erase_it it s ;; erase_all fuel' it' s'
  end.

(** The entries of the half-open range [[first, last)]. *)
Definition range_entries (s : ordered_multimap_t) (first last : iterator)
  : option (list list_entry_t) :=
  walk (S (size s)) (m_list s) first last.

(** Forward and reverse iteration over the whole container. *)
Definition forward (s : ordered_multimap_t) : option (list list_entry_t) :=
  range_entries s (begin s) (end_ s).
Definition backward (s : ordered_multimap_t) : option (list list_entry_t) :=
  walk_back (S (size s)) (m_list s) End.

End Container.

(** * Vocabulary of the specification *)

Section Vocabulary.

Context {K V : Type} `{KeyOrder K}.

Local Abbreviation node := (@node K V).
Local Abbreviation table_t := (@table_t K).
Local Abbreviation ordered_multimap_t := (@ordered_multimap_t K V).
Local Abbreviation sort_function_t := (@sort_function_t K V).
Local Abbreviation list_entry_t := (@list_entry_t K V).

Implicit Types (s other : ordered_multimap_t) (key : K).

(** ** Nodes and index entries *)

Definition node_key (n : node) : K := fst (snd n).
Definition node_value (n : node) : V := snd (snd n).

(** The key-index entry that belongs to a node. *)
Definition index_entry (n : node) : K * handle := (node_key n, fst n).

(** The iterator of the first node of a run of nodes. *)
Definition first_of (ns : list node) : iterator :=
  match ns with
  | [] => End
  | (h, _) :: _ => It h
  end.

(** The predicate "is not node [h]" on nodes. *)
Definition other_than (h : handle) (n : node) : bool := negb (fst n =? h).

(** Overwriting the value of node [h]. *)
Definition assigned (h : handle) (v : V) (n : node) : node :=
  if fst n =? h then (fst n, (fst (snd n), v)) else n.

(** The nodes a loop over the handles [hs] leaves in the list. *)
Definition kept (hs : list handle) (n : node) : bool :=
  negb (existsb (Nat.eqb (fst n)) hs).

(** The node a loop assigning [v] through the handles [hs] leaves for [n]. *)
Definition overwritten (hs : list handle) (v : V) (n : node) : node :=
  if existsb (Nat.eqb (fst n)) hs then (fst n, (fst (snd n), v)) else n.

(** ** The table *)

(** The in-order sequence of a multimap never steps down in key. *)
Definition key_sorted (t : table_t) : Prop :=
  StronglySorted (fun a b => key_lt (fst b) (fst a) = false) t.

(** The predicates "has key [k]" and "is the index entry of node [h]". *)
Definition has_key (k : K) (e : K * handle) : bool := key_eqb (fst e) k.
Definition refers_to (h : handle) (e : K * handle) : bool := snd e =? h.

(** The entries of a sorted table below and above a key, and a table cut
    into the entries below, with and above the key. *)
Definition below (k : K) (e : K * handle) : bool := key_lt (fst e) k.
Definition above (k : K) (e : K * handle) : bool := key_lt k (fst e).

Definition zones (k : K) (a b c : table_t) : Prop :=
  Forall (fun e => below k e = true) a /\
  Forall (fun e => has_key k e = true) b /\
  Forall (fun e => above k e = true) c.

(** ** The class invariant *)

(** Well-formed containers: node identities are distinct and older than
    [fresh]; the table is in key order and holds exactly the index entries
    of the nodes. *)
Record wf (s : ordered_multimap_t) : Prop := mk_wf {
  wf_handles : NoDup (map fst (nodes (m_list s)));
  wf_fresh : Forall (fun n => fst n < fresh (m_list s)) (nodes (m_list s));
  wf_sorted : key_sorted (m_table s);
  wf_index : Permutation (map index_entry (nodes (m_list s))) (m_table s)
}.

(** The entries with a key in sequence order, and the handles the key
    index lists for it, in index order. *)
Definition entries_with (key : K) (s : ordered_multimap_t) : list node :=
  filter (fun n => has_key key (index_entry n)) (nodes (m_list s)).
Definition indexed_with (key : K) (s : ordered_multimap_t) : list handle :=
  map snd (filter (has_key key) (m_table s)).

(** The index lists the entries of [key] in their sequence order. *)
Definition aligned_at (key : K) (s : ordered_multimap_t) : Prop :=
  indexed_with key s = map fst (entries_with key s).
Definition aligned (s : ordered_multimap_t) : Prop :=
  forall key, aligned_at key s.

(** The state left by dropping the entries whose index entry fails [p]. *)
Definition restrict (p : K * handle -> bool) (s : ordered_multimap_t)
  : ordered_multimap_t :=
  mk_map (mk_list (filter (fun n => p (index_entry n)) (nodes (m_list s)))
                  (fresh (m_list s)))
         (filter p (m_table s)).

(** The state [update] leaves when the key is present. *)
Definition revalue (key : K) (v : V) (s : ordered_multimap_t)
  : ordered_multimap_t :=
  mk_map (mk_list (map (fun n => if has_key key (index_entry n)
                                 then (fst n, (node_key n, v)) else n)
                       (nodes (m_list s)))
                  (fresh (m_list s)))
         (m_table s).

(** ** States reachable through the public interface

    [reachable sorting s]: [s] is the state of some container after a
    sequence of constructor calls, member calls and assignments to the
    value of an entry through an iterator, none of them undefined; with
    [sorting = false] no call of [sort] is among them. *)
Inductive reachable (sorting : bool) : ordered_multimap_t -> Prop :=
| reach_new : reachable sorting empty
| reach_copy s : reachable sorting s -> reachable sorting (copy s)
| reach_move_to s : reachable sorting s -> reachable sorting (fst (move s))
| reach_move_from s : reachable sorting s -> reachable sorting (snd (move s))
| reach_clear s : reachable sorting s -> reachable sorting (clear s)
| reach_insert key (value : V) s :
    reachable sorting s -> reachable sorting (snd (insert key value s))
| reach_emplace (Args : Type) (construct : Args -> V) key (args : Args) s :
    reachable sorting s ->
    reachable sorting (snd (emplace construct key args s))
| reach_assign (it : iterator) (value : V) s s' :
    reachable sorting s -> assign it value s = Some s' ->
    reachable sorting s'
| reach_update key (value : V) s (r : iterator) s' :
    reachable sorting s -> update key value s = Some (r, s') ->
    reachable sorting s'
| reach_erase_key key s (r : iterator) s' :
    reachable sorting s -> erase_key key s = Some (r, s') ->
    reachable sorting s'
| reach_erase_it (it : iterator) s (r : iterator) s' :
    reachable sorting s -> erase_it it s = Some (r, s') ->
    reachable sorting s'
| reach_erase_key_value (value_eq : V -> V -> bool) key (value : V) s
    (r : nat) s' :
    reachable sorting s ->
    erase_key_value value_eq key value s = Some (r, s') ->
    reachable sorting s'
| reach_extract key s (r : list V) s' :
    reachable sorting s -> extract key s = Some (r, s') ->
    reachable sorting s'
| reach_merge_this s other :
    reachable sorting s -> reachable sorting other ->
    reachable sorting (fst (merge s other))
| reach_merge_other s other :
    reachable sorting s -> reachable sorting other ->
    reachable sorting (snd (merge s other))
| reach_sort (f : sort_function_t) s :
    sorting = true -> reachable sorting s -> reachable sorting (sort f s).

(** ** Comparators

    The ordering [std::list::sort] requires of its comparator: a strict
    weak ordering, here as asymmetry and transitivity of "not less". *)
Record strict_weak_order (f : sort_function_t) : Prop := mk_swo {
  swo_asym : forall a b, f a b = true -> f b a = false;
  swo_negtrans : forall a b c, f a b = false -> f b c = false -> f a c = false
}.

(** Entries the comparator does not tell apart. *)
Definition equivalent (f : sort_function_t) (a b : list_entry_t) : bool :=
  negb (f a b) && negb (f b a).

(** No entry is followed, anywhere later, by one the comparator puts
    before it. *)
Definition sorted_by (f : sort_function_t) (ns : list node) : Prop :=
  StronglySorted (fun a b => f (snd b) (snd a) = false) ns.

(** ** What the claims say *)

(** Every node has exactly one index entry referring to it, which carries
    the node's key; every index entry refers to a live node with its key;
    and no two nodes share an identity. *)
Definition corresponds (s : ordered_multimap_t) : Prop :=
  (forall h k v, In (h, (k, v)) (nodes (m_list s)) ->
                 filter (refers_to h) (m_table s) = [(k, h)]) /\
  (forall k h, In (k, h) (m_table s) ->
               exists v, list_deref (m_list s) (It h) = Some (k, v)) /\
  NoDup (map fst (nodes (m_list s))).

(** The values a loop over the range returned by [equal_range(key)] sees. *)
Definition equal_range_values (key : K) (s : ordered_multimap_t)
  : option (list V) :=
  '(first, last) <- equal_range key s ;;
  es <- range_entries s first last ;;
  Some (map snd es).

(** The claim as the specification words it: the extracted values are those
    of [equal_range(key)] before the call, the key is gone afterwards and
    the other entries are untouched. *)
Definition extract_as_equal_range (key : K) (s : ordered_multimap_t) : Prop :=
  exists vals s',
    extract key s = Some (vals, s') /\
    equal_range_values key s = Some vals /\
    count key s' = 0 /\
    to_vector s' = filter (fun e => negb (key_eqb (fst e) key)) (to_vector s).

(** The same with the values of the key's entries in sequence order. *)
Definition extract_in_sequence_order (key : K) (s : ordered_multimap_t) : Prop :=
  exists vals s',
    extract key s = Some (vals, s') /\
    vals = map node_value (entries_with key s).

(** The part of the claim that fails: on an existing key the returned
    iterator is that of the first entry with the key in sequence order. *)
Definition update_returns_first_in_sequence (key : K) (value : V)
  (s : ordered_multimap_t) : Prop :=
  entries_with key s <> [] ->
  exists s', update key value s = Some (first_of (entries_with key s), s').

End Vocabulary.

(** ** Sequences of appending calls *)

Section Calls.

Context {K V Args : Type} `{KeyOrder K}.

(** [construct] is the constructor of [Value] that [emplace] forwards to. *)
Variable construct : Args -> V.

Inductive call : Type :=
| Insert (key : K) (value : V)
| Emplace (key : K) (args : Args).

Definition entry_of (c : call) : list_entry_t :=
  match c with
  | Insert key value => (key, value)
  | Emplace key args => (key, construct args)
  end.

Definition perform (c : call) (s : ordered_multimap_t)
  : iterator * ordered_multimap_t :=
  match c with
  | Insert key value => insert key value s
  | Emplace key args => emplace construct key args s
  end.

Definition perform_all (cs : list call) (s : ordered_multimap_t)
  : ordered_multimap_t :=
  fold_left (fun s c => snd (perform c s)) cs s.

End Calls.

(** ** Keys used in the examples: [std::string] under [operator<] *)

Lemma ascii_compare_refl (c : Ascii.ascii) : Ascii.compare c c = Eq.
Proof. unfold Ascii.compare. apply N.compare_refl. Qed.

Lemma ascii_compare_trans (a b c : Ascii.ascii) :
  Ascii.compare a b = Lt -> Ascii.compare b c = Lt -> Ascii.compare a c = Lt.
Proof. unfold Ascii.compare. rewrite !N.compare_lt_iff. lia. Qed.

Lemma string_compare_refl (a : String.string) : String.compare a a = Eq.
Proof.
  induction a as [|c a IH]; simpl; [reflexivity|].
  now rewrite ascii_compare_refl.
Qed.

Lemma string_compare_trans (a : String.string) :
  forall b c,
  String.compare a b = Lt -> String.compare b c = Lt -> String.compare a c = Lt.
Proof.
  induction a as [|x a IH]; intros [|y b] [|z c]; simpl;
    try discriminate; try reflexivity.
  destruct (Ascii.compare x y) eqn:Hxy; try discriminate;
    destruct (Ascii.compare y z) eqn:Hyz; try discriminate; intros Hab Hbc.
  - apply Ascii.compare_eq_iff in Hxy, Hyz. subst.
    rewrite ascii_compare_refl. eauto.
  - apply Ascii.compare_eq_iff in Hxy. subst. now rewrite Hyz.
  - apply Ascii.compare_eq_iff in Hyz. subst. now rewrite Hxy.
  - now rewrite (ascii_compare_trans _ _ _ Hxy Hyz).
Qed.

Lemma string_lt_irrefl (a : String.string) : String.ltb a a = false.
Proof. unfold String.ltb. now rewrite string_compare_refl. Qed.

Lemma string_lt_trans (a b c : String.string) :
  String.ltb a b = true -> String.ltb b c = true -> String.ltb a c = true.
Proof.
  unfold String.ltb. intros Hab Hbc.
  destruct (String.compare a b) eqn:H1; try discriminate.
  destruct (String.compare b c) eqn:H2; try discriminate.
  now rewrite (string_compare_trans _ _ _ H1 H2).
Qed.

Lemma string_lt_total (a b : String.string) :
  String.ltb a b = false -> String.ltb b a = false -> a = b.
Proof.
  unfold String.ltb. rewrite (String.compare_antisym b a).
  destruct (String.compare a b) eqn:H1; simpl; try discriminate.
  intros _ _. now apply String.compare_eq_iff.
Qed.

#[export] Instance string_key : KeyOrder String.string := {|
  key_lt := String.ltb;
  key_lt_irrefl := string_lt_irrefl;
  key_lt_trans := string_lt_trans;
  key_lt_total := string_lt_total
|}.

(** The container of the test suite:
    [using Table = ordered_multimap_t<std::string, int>]. *)
Definition Table : Type := @ordered_multimap_t String.string Z.

(** ** The containers the tests build *)

Section Tables.

Import String.StringSyntax.
Local Open Scope string_scope.
Local Open Scope Z_scope.

(** [table.insert(key, value)] as a statement. *)
Definition inserted (key : String.string) (value : Z) (s : Table) : Table :=
  snd (insert key value s).

(** test_insertion_and_order: a:1 b:2 a:3 c:4 *)
Definition table_abac : Table :=
  inserted "c" 4 (inserted "a" 3 (inserted "b" 2 (inserted "a" 1 empty))).

(** test_find_and_erase_by_iterator: a:1 b:2 b:3 c:4 *)
Definition table_abbc : Table :=
  inserted "c" 4 (inserted "b" 3 (inserted "b" 2 (inserted "a" 1 empty))).

(** test_erase_by_key: d:1 d:2 e:3 *)
Definition table_dde : Table :=
  inserted "e" 3 (inserted "d" 2 (inserted "d" 1 empty)).

(** test_equal_range: x:10 x:11 y:20 x:12 *)
Definition table_xxyx : Table :=
  inserted "x" 12 (inserted "y" 20 (inserted "x" 11 (inserted "x" 10 empty))).

(** test_merge: a:1 b:2 and c:3 a:4 *)
Definition table_ab : Table := inserted "b" 2 (inserted "a" 1 empty).
Definition table_ca : Table := inserted "a" 4 (inserted "c" 3 empty).

(** The comparator of test_sort_by_value. *)
Definition by_value : @sort_function_t String.string Z :=
  fun a b => snd a <? snd b.

(** x:2 x:1 y:3 sorted by value: x:1 x:2 y:3, the index still listing the
    node of x:2 before the node of x:1. *)
Definition table_sorted : Table :=
  sort by_value (inserted "y" 3 (inserted "x" 1 (inserted "x" 2 empty))).

End Tables.

(** * Properties *)

Section KeyFacts.

Context {K : Type} `{KeyOrder K}.

Lemma key_lt_asym (a b : K) : key_lt a b = true -> key_lt b a = false.
Proof.
  intros Hab. destruct (key_lt b a) eqn:Hba; [|reflexivity].
  rewrite <- (key_lt_irrefl a). symmetry. eapply key_lt_trans; eassumption.
Qed.

Lemma key_eqb_eq (a b : K) : key_eqb a b = true <-> a = b.
Proof.
  unfold key_eqb. split.
  - intros Hab. apply andb_true_iff in Hab. destruct Hab as [H1 H2].
    apply negb_true_iff in H1, H2. now apply key_lt_total.
  - intros ->. now rewrite key_lt_irrefl.
Qed.

Lemma key_eqb_refl (a : K) : key_eqb a a = true.
Proof. now apply key_eqb_eq. Qed.

Lemma key_eqb_neq (a b : K) : key_eqb a b = false <-> a <> b.
Proof.
  rewrite <- key_eqb_eq. destruct (key_eqb a b); split; congruence.
Qed.

Lemma key_eqb_sym (a b : K) : key_eqb a b = key_eqb b a.
Proof. unfold key_eqb. apply andb_comm. Qed.

(** Mixed transitivity: [a <= b] and [b < c], or [a < b] and [b <= c]. *)
Lemma key_le_lt_trans (a b c : K) :
  key_lt b a = false -> key_lt b c = true -> key_lt a c = true.
Proof.
  intros Hba Hbc. destruct (key_lt a b) eqn:Hab.
  - eapply key_lt_trans; eassumption.
  - now rewrite (key_lt_total a b Hab Hba).
Qed.

Lemma key_lt_le_trans (a b c : K) :
  key_lt a b = true -> key_lt c b = false -> key_lt a c = true.
Proof.
  intros Hab Hcb. destruct (key_lt b c) eqn:Hbc.
  - eapply key_lt_trans; eassumption.
  - now rewrite <- (key_lt_total b c Hbc Hcb).
Qed.

End KeyFacts.

(** ** Generic list facts *)

Section ListFacts.

Context {A B : Type}.

Lemma filter_filter (p q : A -> bool) (l : list A) :
  filter p (filter q l) = filter (fun x => q x && p x) l.
Proof.
  induction l as [|x l IH]; simpl; [reflexivity|].
  destruct (q x); simpl; [destruct (p x)|]; now rewrite IH.
Qed.

Lemma map_filter (f : A -> B) (p : B -> bool) (l : list A) :
  filter p (map f l) = map f (filter (fun x => p (f x)) l).
Proof.
  induction l as [|x l IH]; simpl; [reflexivity|].
  destruct (p (f x)); simpl; now rewrite IH.
Qed.

Lemma Permutation_filter (p : A -> bool) (l l' : list A) :
  Permutation l l' -> Permutation (filter p l) (filter p l').
Proof.
  induction 1 as [|x l l' _ IH|x y l|l l' l'' _ IH1 _ IH2]; simpl.
  - constructor.
  - destruct (p x); [now constructor|assumption].
  - destruct (p x), (p y); try reflexivity. constructor.
  - now transitivity (filter p l').
Qed.

(** Dropping elements keeps their images distinct. *)
Lemma NoDup_map_filter (keep : A -> bool) (proj : A -> B) (xs : list A)
  (Hnd : NoDup (map proj xs)) : NoDup (map proj (filter keep xs)).
Proof.
  revert Hnd. induction xs as [|x xs IH]; simpl; intros Hnd; [constructor|].
  inversion Hnd as [|? ? Hnotin Hnd']; subst.
  destruct (keep x); simpl; [constructor|]; auto.
  intros Hin. apply Hnotin. apply in_map_iff in Hin.
  destruct Hin as [y [Hy Hin]]. apply filter_In in Hin.
  apply in_map_iff. exists y. tauto.
Qed.

Lemma NoDup_map_In_eq (f : A -> B) (l : list A) (x y : A) :
  NoDup (map f l) -> In x l -> In y l -> f x = f y -> x = y.
Proof.
  induction l as [|z l IH]; simpl; intros Hnd Hx Hy Hf; [contradiction|].
  inversion Hnd as [|? ? Hnotin Hnd']; subst.
  destruct Hx as [->|Hx], Hy as [->|Hy]; auto.
  - exfalso. apply Hnotin. rewrite Hf. now apply in_map.
  - exfalso. apply Hnotin. rewrite <- Hf. now apply in_map.
Qed.

Lemma StronglySorted_filter (R : A -> A -> Prop) (p : A -> bool) (l : list A) :
  StronglySorted R l -> StronglySorted R (filter p l).
Proof.
  induction 1 as [|x l Hs IH Hall]; simpl; [constructor|].
  destruct (p x); [constructor|]; auto.
  apply Forall_forall. intros y Hy. apply filter_In in Hy.
  rewrite Forall_forall in Hall. now apply Hall.
Qed.

End ListFacts.

Lemma filter_all (A : Type) (p : A -> bool) (l : list A) :
  Forall (fun x => p x = true) l -> filter p l = l.
Proof. induction 1 as [|x l' Hx _ IH]; simpl; [|rewrite Hx, IH]; reflexivity. Qed.

Lemma filter_none (A : Type) (p : A -> bool) (l : list A) :
  Forall (fun x => p x = false) l -> filter p l = [].
Proof. induction 1 as [|x l' Hx _ IH]; simpl; [|rewrite Hx, IH]; reflexivity. Qed.

Lemma map_filter_through (A B : Type) (f : A -> B) (p : A -> bool) (q : B -> bool)
  (l : list A) :
  (forall x, In x l -> p x = q (f x)) -> map f (filter p l) = filter q (map f l).
Proof.
  intros Hpq. rewrite map_filter. f_equal. now apply filter_ext_in.
Qed.

(** ** Facts about the list model *)

Section NodeFacts.

Context {K V : Type} `{KeyOrder K}.

Local Abbreviation node := (@node K V).

Lemma filter_other_than_absent (h : handle) (ns : list node) :
  ~ In h (map fst ns) -> filter (other_than h) ns = ns.
Proof.
  induction ns as [|[h' e] ns IH]; simpl; intros Hnotin; [reflexivity|].
  unfold other_than at 1. simpl.
  destruct (Nat.eqb_spec h' h) as [->|Hne]; simpl.
  - exfalso. apply Hnotin. now left.
  - rewrite IH; [reflexivity|]. intros Hin. apply Hnotin. now right.
Qed.

Lemma remove_node_filter (h : handle) (ns : list node) :
  NoDup (map fst ns) -> In h (map fst ns) ->
  remove_node h ns = Some (filter (other_than h) ns).
Proof.
  induction ns as [|[h' e] ns IH]; simpl; intros Hnd Hin; [contradiction|].
  inversion Hnd as [|? ? Hnotin Hnd']; subst.
  unfold other_than at 1. simpl. rewrite (Nat.eqb_sym h' h).
  destruct (Nat.eqb_spec h h') as [->|Hne]; simpl.
  - now rewrite filter_other_than_absent.
  - destruct Hin as [Heq|Hin]; [congruence|].
    now rewrite IH.
Qed.

Lemma remove_node_handles (h : handle) (ns ns' : list node) :
  remove_node h ns = Some ns' -> In h (map fst ns).
Proof.
  revert ns'. induction ns as [|[h' e] ns IH]; simpl; intros ns' Hrm; [discriminate|].
  destruct (Nat.eqb_spec h h') as [->|Hne]; [now left|].
  destruct (remove_node h ns) as [r|]; simpl in Hrm; [|discriminate].
  right. now apply (IH r).
Qed.

Lemma lookup_node_In (h : handle) (e : list_entry_t) (ns : list node) :
  NoDup (map fst ns) -> In (h, e) ns -> lookup_node h ns = Some e.
Proof.
  induction ns as [|[h' e'] ns IH]; simpl; intros Hnd Hin; [contradiction|].
  inversion Hnd as [|? ? Hnotin Hnd']; subst.
  destruct Hin as [Heq|Hin].
  - inversion Heq; subst. now rewrite Nat.eqb_refl.
  - destruct (Nat.eqb_spec h h') as [->|Hne]; [|auto].
    exfalso. apply Hnotin. apply in_map_iff. now exists (h', e).
Qed.

Lemma lookup_node_Some (h : handle) (e : list_entry_t) (ns : list node) :
  lookup_node h ns = Some e -> In (h, e) ns.
Proof.
  induction ns as [|[h' e'] ns IH]; simpl; intros Hl; [discriminate|].
  destruct (Nat.eqb_spec h h') as [->|Hne].
  - inversion Hl; subst. now left.
  - right. auto.
Qed.

Lemma lookup_node_other (h h' : handle) (ns : list node) :
  h <> h' -> lookup_node h (filter (other_than h') ns) = lookup_node h ns.
Proof.
  intros Hne. induction ns as [|[h1 e1] ns IH]; simpl; [reflexivity|].
  unfold other_than at 1. simpl.
  destruct (Nat.eqb_spec h1 h') as [->|Hne1]; simpl.
  - destruct (Nat.eqb_spec h h'); [contradiction|assumption].
  - now rewrite IH.
Qed.

Lemma node_after_defined (h : handle) (ns : list node) :
  In h (map fst ns) -> exists it, node_after h ns = Some it.
Proof.
  induction ns as [|[h' e] ns IH]; simpl; intros Hin; [contradiction|].
  destruct (Nat.eqb_spec h h') as [->|Hne]; [eauto|].
  destruct Hin as [Heq|Hin]; [congruence|auto].
Qed.

Lemma assigned_handle (h : handle) (v : V) (n : node) :
  fst (assigned h v n) = fst n.
Proof. unfold assigned. now destruct (fst n =? h). Qed.

Lemma assigned_key (h : handle) (v : V) (n : node) :
  fst (snd (assigned h v n)) = fst (snd n).
Proof. unfold assigned. now destruct (fst n =? h). Qed.

Lemma map_assigned_absent (h : handle) (v : V) (ns : list node) :
  ~ In h (map fst ns) -> map (assigned h v) ns = ns.
Proof.
  induction ns as [|[h' e] ns IH]; simpl; intros Hnotin; [reflexivity|].
  unfold assigned at 1. simpl.
  destruct (Nat.eqb_spec h' h) as [->|Hne].
  - exfalso. apply Hnotin. now left.
  - rewrite IH; [reflexivity|]. intros Hin. apply Hnotin. now right.
Qed.

Lemma assign_node_map (h : handle) (v : V) (ns : list node) :
  NoDup (map fst ns) -> In h (map fst ns) ->
  assign_node h v ns = Some (map (assigned h v) ns).
Proof.
  induction ns as [|[h' [k v']] ns IH]; simpl; intros Hnd Hin; [contradiction|].
  inversion Hnd as [|? ? Hnotin Hnd']; subst.
  unfold assigned at 1. simpl. rewrite (Nat.eqb_sym h' h).
  destruct (Nat.eqb_spec h h') as [->|Hne]; simpl.
  - now rewrite map_assigned_absent.
  - destruct Hin as [Heq|Hin]; [congruence|].
    now rewrite IH.
Qed.

Lemma assign_node_handles (h : handle) (v : V) (ns ns' : list node) :
  assign_node h v ns = Some ns' -> In h (map fst ns).
Proof.
  revert ns'. induction ns as [|[h' [k v']] ns IH]; simpl; intros ns' Has;
    [discriminate|].
  destruct (Nat.eqb_spec h h') as [->|Hne]; [now left|].
  destruct (assign_node h v ns) as [r|]; simpl in Has; [|discriminate].
  right. now apply (IH r).
Qed.

Lemma sort_place_perm (f : sort_function_t) (x : node) (ns : list node) :
  Permutation (x :: ns) (sort_place f x ns).
Proof.
  induction ns as [|y ns IH]; simpl; [reflexivity|].
  destruct (f (snd y) (snd x)); [|reflexivity].
  rewrite perm_swap. now constructor.
Qed.

Lemma sort_nodes_perm (f : sort_function_t) (ns : list node) :
  Permutation ns (sort_nodes f ns).
Proof.
  induction ns as [|x ns IH]; simpl; [constructor|].
  rewrite <- sort_place_perm. now constructor.
Qed.

End NodeFacts.

(** ** Facts about the multimap model *)

Section TableFacts.

Context {K : Type} `{KeyOrder K}.

Local Abbreviation table_t := (@table_t K).

Lemma table_insert_perm (k : K) (h : handle) (t : table_t) :
  Permutation ((k, h) :: t) (table_insert k h t).
Proof.
  induction t as [|[k' h'] t IH]; simpl; [reflexivity|].
  destruct (key_lt k k'); [reflexivity|].
  rewrite perm_swap. now constructor.
Qed.

Lemma table_insert_sorted (k : K) (h : handle) (t : table_t) :
  key_sorted t -> key_sorted (table_insert k h t).
Proof.
  unfold key_sorted. induction 1 as [|[k' h'] t Hs IH Hall]; simpl.
  - constructor; constructor.
  - destruct (key_lt k k') eqn:Hlt.
    + constructor; [now constructor|].
      constructor; [simpl; now apply key_lt_asym|].
      rewrite Forall_forall in *. intros [k2 h2] Hin. simpl.
      specialize (Hall _ Hin). simpl in Hall.
      apply key_lt_asym. eapply key_lt_le_trans; eassumption.
    + constructor; [assumption|].
      eapply Permutation_Forall; [apply table_insert_perm|].
      constructor; assumption.
Qed.

(** *** The three zones of a sorted table around a key *)

Lemma has_key_eq (k : K) (e : K * handle) : has_key k e = true <-> fst e = k.
Proof. apply key_eqb_eq. Qed.

Lemma has_key_not_below (k : K) (e : K * handle) :
  has_key k e = true -> below k e = false.
Proof.
  intros Hk. apply has_key_eq in Hk. unfold below. rewrite Hk.
  apply key_lt_irrefl.
Qed.

Lemma has_key_not_above (k : K) (e : K * handle) :
  has_key k e = true -> above k e = false.
Proof.
  intros Hk. apply has_key_eq in Hk. unfold above. rewrite Hk.
  apply key_lt_irrefl.
Qed.

Lemma below_not_above (k : K) (e : K * handle) :
  below k e = true -> above k e = false.
Proof. apply key_lt_asym. Qed.

Lemma above_not_below (k : K) (e : K * handle) :
  above k e = true -> below k e = false.
Proof. apply key_lt_asym. Qed.

Lemma below_not_has_key (k : K) (e : K * handle) :
  below k e = true -> has_key k e = false.
Proof.
  intros Hb. destruct (has_key k e) eqn:Hk; [|reflexivity].
  apply has_key_not_below in Hk. congruence.
Qed.

Lemma above_not_has_key (k : K) (e : K * handle) :
  above k e = true -> has_key k e = false.
Proof.
  intros Ha. destruct (has_key k e) eqn:Hk; [|reflexivity].
  apply has_key_not_above in Hk. congruence.
Qed.

Lemma key_sorted_zones (k : K) (t : table_t) :
  key_sorted t -> exists a b c, t = a ++ b ++ c /\ zones k a b c.
Proof.
  unfold key_sorted, zones.
  induction 1 as [|x t Hs IH Hall].
  - exists [], [], []. repeat split; constructor.
  - destruct IH as (a & b & c & -> & Ha & Hb & Hc).
    destruct (below k x) eqn:Hbx.
    + exists (x :: a), b, c. repeat split; auto.
    + assert (a = []) as ->.
      { destruct a as [|y a]; [reflexivity|]. exfalso.
        inversion Ha as [|? ? Hy _]; subst. inversion Hall as [|? ? Hxy _]; subst.
        unfold below in *. rewrite (key_le_lt_trans _ _ _ Hxy Hy) in Hbx.
        discriminate. }
      simpl in *. destruct (above k x) eqn:Hax.
      * assert (b = []) as ->.
        { destruct b as [|y b]; [reflexivity|]. exfalso.
          inversion Hb as [|? ? Hy _]; subst. inversion Hall as [|? ? Hxy _]; subst.
          apply has_key_eq in Hy. unfold above in Hax. rewrite <- Hy in Hax.
          congruence. }
        exists [], [], (x :: c). repeat split; auto.
      * exists [], (x :: b), c. repeat split; auto.
        constructor; [|assumption]. unfold has_key, key_eqb.
        unfold below, above in *. now rewrite Hbx, Hax.
Qed.

Section Zones.

Variables (k : K) (a b c : table_t).
Hypothesis Hz : zones k a b c.

Lemma zones_lower_bound : lower_bound k (a ++ b ++ c) = length a.
Proof.
  destruct Hz as (Ha & Hb & Hc). clear Hz.
  induction Ha as [|[k1 h1] a' Hx _ IH]; simpl.
  - destruct Hb as [|[k1 h1] b' Hx _]; simpl.
    + destruct Hc as [|[k1 h1] c' Hx _]; simpl; [reflexivity|].
      apply above_not_below in Hx. unfold below in Hx. simpl in Hx. now rewrite Hx.
    + apply has_key_not_below in Hx. unfold below in Hx. simpl in Hx. now rewrite Hx.
  - unfold below in Hx. simpl in Hx. now rewrite Hx, IH.
Qed.

Lemma zones_upper_bound : upper_bound k (a ++ b ++ c) = length a + length b.
Proof.
  destruct Hz as (Ha & Hb & Hc). clear Hz.
  induction Ha as [|[k1 h1] a' Hx _ IH]; simpl.
  - induction Hb as [|[k1 h1] b' Hx _ IH]; simpl.
    + destruct Hc as [|[k1 h1] c' Hx _]; simpl; [reflexivity|].
      unfold above in Hx. simpl in Hx. now rewrite Hx.
    + apply has_key_not_above in Hx. unfold above in Hx. simpl in Hx.
      now rewrite Hx, IH.
  - apply below_not_above in Hx. unfold above in Hx. simpl in Hx.
    now rewrite Hx, IH.
Qed.

Lemma zones_insert (h : handle) :
  table_insert k h (a ++ b ++ c) = a ++ b ++ (k, h) :: c.
Proof.
  destruct Hz as (Ha & Hb & Hc). clear Hz.
  induction Ha as [|[k1 h1] a' Hx _ IH]; simpl.
  - induction Hb as [|[k1 h1] b' Hx _ IH]; simpl.
    + destruct Hc as [|[k1 h1] c' Hx _]; simpl; [reflexivity|].
      unfold above in Hx. simpl in Hx. now rewrite Hx.
    + apply has_key_not_above in Hx. unfold above in Hx. simpl in Hx.
      now rewrite Hx, IH.
  - apply below_not_above in Hx. unfold above in Hx. simpl in Hx.
    now rewrite Hx, IH.
Qed.

Lemma zones_has_key : filter (has_key k) (a ++ b ++ c) = b.
Proof.
  destruct Hz as (Ha & Hb & Hc).
  rewrite !filter_app, (filter_all _ _ b Hb).
  rewrite (filter_none _ _ a), (filter_none _ _ c), app_nil_r; [reflexivity| |].
  - eapply Forall_impl; [|exact Hc]. apply above_not_has_key.
  - eapply Forall_impl; [|exact Ha]. apply below_not_has_key.
Qed.

Lemma zones_not_has_key :
  filter (fun e => negb (has_key k e)) (a ++ b ++ c) = a ++ c.
Proof.
  destruct Hz as (Ha & Hb & Hc).
  rewrite !filter_app, (filter_none _ _ b).
  - rewrite (filter_all _ _ a), (filter_all _ _ c); [reflexivity| |].
    + eapply Forall_impl; [|exact Hc]. intros e He.
      now rewrite (above_not_has_key _ _ He).
    + eapply Forall_impl; [|exact Ha]. intros e He.
      now rewrite (below_not_has_key _ _ He).
  - eapply Forall_impl; [|exact Hb]. intros e He. now rewrite He.
Qed.

Lemma zones_slice :
  table_slice (length a) (length a + length b) (a ++ b ++ c) = b.
Proof.
  unfold table_slice. rewrite skipn_app, skipn_all, Nat.sub_diag. simpl.
  replace (length a + length b - length a) with (length b + 0) by lia.
  rewrite firstn_app_2. simpl. apply app_nil_r.
Qed.

Lemma zones_erase_range :
  table_erase_range (length a) (length a + length b) (a ++ b ++ c) = a ++ c.
Proof.
  unfold table_erase_range.
  rewrite firstn_app, firstn_all, Nat.sub_diag. simpl. rewrite app_nil_r.
  f_equal. rewrite app_assoc, skipn_app, skipn_all2 by (rewrite length_app; lia).
  rewrite length_app. replace (length a + length b - (length a + length b)) with 0 by lia.
  reflexivity.
Qed.

End Zones.

Lemma table_insert_has_key (k k' : K) (h : handle) (t : table_t) :
  key_sorted t ->
  filter (has_key k') (table_insert k h t) =
  filter (has_key k') t ++ (if key_eqb k k' then [(k, h)] else []).
Proof.
  intros Hs. destruct (key_sorted_zones k t Hs) as (a & b & c & -> & Hz).
  rewrite (zones_insert k a b c Hz).
  destruct (key_eqb k k') eqn:Hk.
  - apply key_eqb_eq in Hk. subst k'.
    rewrite (zones_has_key k a b c Hz).
    destruct Hz as (Ha & Hb & Hc).
    rewrite !filter_app. simpl. unfold has_key at 3. simpl. rewrite key_eqb_refl.
    rewrite (filter_all _ _ b Hb).
    rewrite (filter_none _ _ a), (filter_none _ _ c); [reflexivity| |].
    + eapply Forall_impl; [|exact Hc]. apply above_not_has_key.
    + eapply Forall_impl; [|exact Ha]. apply below_not_has_key.
  - rewrite !filter_app. simpl. unfold has_key at 3. simpl. rewrite Hk.
    now rewrite !app_nil_r.
Qed.

(** *** What the bounds of a sorted table delimit *)

Lemma equal_range_slice (k : K) (t : table_t) :
  key_sorted t ->
  table_slice (lower_bound k t) (upper_bound k t) t = filter (has_key k) t.
Proof.
  intros Hs. destruct (key_sorted_zones k t Hs) as (a & b & c & -> & Hz).
  rewrite (zones_lower_bound k a b c Hz), (zones_upper_bound k a b c Hz).
  now rewrite zones_slice, (zones_has_key k a b c Hz).
Qed.

Lemma equal_range_erase (k : K) (t : table_t) :
  key_sorted t ->
  table_erase_range (lower_bound k t) (upper_bound k t) t =
  filter (fun e => negb (has_key k e)) t.
Proof.
  intros Hs. destruct (key_sorted_zones k t Hs) as (a & b & c & -> & Hz).
  rewrite (zones_lower_bound k a b c Hz), (zones_upper_bound k a b c Hz).
  now rewrite zones_erase_range, (zones_not_has_key k a b c Hz).
Qed.

Lemma equal_range_count (k : K) (t : table_t) :
  key_sorted t ->
  upper_bound k t - lower_bound k t = length (filter (has_key k) t).
Proof.
  intros Hs. destruct (key_sorted_zones k t Hs) as (a & b & c & -> & Hz).
  rewrite (zones_lower_bound k a b c Hz), (zones_upper_bound k a b c Hz).
  rewrite (zones_has_key k a b c Hz). lia.
Qed.

Lemma equal_range_empty (k : K) (t : table_t) :
  key_sorted t ->
  (lower_bound k t =? upper_bound k t) = true <-> filter (has_key k) t = [].
Proof.
  intros Hs. destruct (key_sorted_zones k t Hs) as (a & b & c & -> & Hz).
  rewrite (zones_lower_bound k a b c Hz), (zones_upper_bound k a b c Hz).
  rewrite (zones_has_key k a b c Hz), Nat.eqb_eq.
  destruct b; simpl; split; intros; try reflexivity; try discriminate; lia.
Qed.

Lemma lower_bound_first (k : K) (t : table_t) (e : K * handle) (rest : table_t) :
  key_sorted t -> filter (has_key k) t = e :: rest ->
  nth_error t (lower_bound k t) = Some e.
Proof.
  intros Hs. destruct (key_sorted_zones k t Hs) as (a & b & c & -> & Hz).
  rewrite (zones_lower_bound k a b c Hz), (zones_has_key k a b c Hz).
  intros ->. rewrite nth_error_app2, Nat.sub_diag by lia. reflexivity.
Qed.

Lemma table_find_first (k : K) (t : table_t) (e : K * handle) (rest : table_t) :
  key_sorted t -> filter (has_key k) t = e :: rest ->
  table_find k t = lower_bound k t /\ lower_bound k t < length t.
Proof.
  intros Hs Hf. unfold table_find.
  pose proof (lower_bound_first k t e rest Hs Hf) as Hnth.
  rewrite Hnth. destruct e as [k' h'].
  assert (Hin : In (k', h') (filter (has_key k) t)) by (rewrite Hf; now left).
  apply filter_In in Hin. destruct Hin as [_ Hk].
  apply has_key_not_above in Hk. unfold above in Hk. simpl in Hk. rewrite Hk.
  split; [reflexivity|]. apply nth_error_Some. congruence.
Qed.

Lemma table_find_absent (k : K) (t : table_t) :
  key_sorted t -> filter (has_key k) t = [] -> table_find k t = length t.
Proof.
  intros Hs. destruct (key_sorted_zones k t Hs) as (a & b & c & -> & Hz).
  unfold table_find.
  rewrite (zones_lower_bound k a b c Hz), (zones_has_key k a b c Hz).
  intros ->. simpl. rewrite nth_error_app2, Nat.sub_diag by lia.
  destruct Hz as (_ & _ & Hc).
  destruct Hc as [|[k' h'] c' Hx _]; simpl; [reflexivity|].
  unfold above in Hx. simpl in Hx. now rewrite Hx.
Qed.

Lemma table_erase_filter (i : nat) (e : K * handle) (t : table_t) :
  NoDup (map snd t) -> nth_error t i = Some e ->
  table_erase i t = filter (fun e' => negb (refers_to (snd e) e')) t.
Proof.
  unfold table_erase. revert i.
  induction t as [|x t IH]; intros i Hnd Hnth; [now destruct i|].
  inversion Hnd as [|? ? Hnotin Hnd']; subst.
  destruct i as [|i]; simpl in *.
  - inversion Hnth; subst. unfold refers_to at 1. rewrite Nat.eqb_refl. simpl.
    symmetry. apply filter_all. apply Forall_forall. intros y Hy.
    unfold refers_to. apply negb_true_iff. apply Nat.eqb_neq. intros Heq.
    apply Hnotin. rewrite <- Heq. now apply in_map.
  - unfold refers_to at 1. destruct (Nat.eqb_spec (snd x) (snd e)) as [Heq|Hne]; simpl.
    + exfalso. apply Hnotin. rewrite Heq. apply in_map. eapply nth_error_In; eassumption.
    + f_equal. now apply IH.
Qed.

End TableFacts.

(** ** The class invariant *)

Section Invariant.

Context {K V : Type} `{KeyOrder K}.

Local Abbreviation node := (@node K V).
Local Abbreviation ordered_multimap_t := (@ordered_multimap_t K V).

Lemma map_snd_index_entry (ns : list node) :
  map snd (map index_entry ns) = map fst ns.
Proof. rewrite map_map. reflexivity. Qed.

Lemma wf_table_handles (s : ordered_multimap_t) :
  wf s -> NoDup (map snd (m_table s)).
Proof.
  intros [Hnd _ _ Hperm].
  eapply Permutation_NoDup; [apply Permutation_map, Hperm|].
  now rewrite map_snd_index_entry.
Qed.

Lemma wf_index_In (s : ordered_multimap_t) (k : K) (h : handle) :
  wf s -> In (k, h) (m_table s) ->
  exists v, In (h, (k, v)) (nodes (m_list s)).
Proof.
  intros [_ _ _ Hperm] Hin.
  apply (Permutation_in _ (Permutation_sym Hperm)) in Hin.
  apply in_map_iff in Hin. destruct Hin as [[h' [k' v]] [Heq Hin]].
  inversion Heq; subst. now exists v.
Qed.

Lemma wf_node_In (s : ordered_multimap_t) (n : node) :
  wf s -> In n (nodes (m_list s)) -> In (index_entry n) (m_table s).
Proof.
  intros [_ _ _ Hperm] Hin.
  apply (Permutation_in _ Hperm). now apply in_map.
Qed.

Lemma wf_empty : wf (@empty K V).
Proof. split; simpl; constructor. Qed.

Lemma wf_clear (s : ordered_multimap_t) : wf (clear s).
Proof. split; simpl; constructor. Qed.

Lemma wf_restrict (p : K * handle -> bool) (s : ordered_multimap_t) :
  wf s -> wf (restrict p s).
Proof.
  intros [Hnd Hfr Hso Hperm]. split; simpl.
  - now apply NoDup_map_filter.
  - apply Forall_forall. intros n Hn. apply filter_In in Hn.
    rewrite Forall_forall in Hfr. now apply Hfr.
  - now apply StronglySorted_filter.
  - rewrite <- (map_filter index_entry p). now apply Permutation_filter.
Qed.

Lemma wf_append_entry (e : list_entry_t) (s : ordered_multimap_t) :
  wf s -> wf (snd (append_entry e s)).
Proof.
  intros [Hnd Hfr Hso Hperm]. split; simpl.
  - rewrite map_app. simpl.
    eapply Permutation_NoDup; [apply Permutation_cons_append|].
    constructor; [|assumption].
    intros Hin. apply in_map_iff in Hin. destruct Hin as [n [Heq Hin]].
    rewrite Forall_forall in Hfr. specialize (Hfr n Hin). simpl in Hfr.
    exact (Nat.lt_neq _ _ Hfr Heq).
  - apply Forall_app. split.
    + eapply Forall_impl; [|exact Hfr]. simpl. intros n Hn. now apply Nat.lt_lt_succ_r.
    + constructor; [simpl; apply Nat.lt_succ_diag_r|constructor].
  - now apply table_insert_sorted.
  - rewrite map_app. simpl.
    rewrite <- table_insert_perm, <- Permutation_cons_append.
    now constructor.
Qed.

Lemma wf_sort (f : sort_function_t) (s : ordered_multimap_t) :
  wf s -> wf (sort f s).
Proof.
  intros [Hnd Hfr Hso Hperm].
  pose proof (sort_nodes_perm f (nodes (m_list s))) as Hp.
  split; simpl.
  - eapply Permutation_NoDup; [apply Permutation_map, Hp|assumption].
  - eapply Permutation_Forall; [exact Hp|assumption].
  - assumption.
  - rewrite <- Hperm. apply Permutation_map. now symmetry.
Qed.

Lemma wf_append_all (es : list list_entry_t) (s : ordered_multimap_t) :
  wf s -> wf (fold_left (fun s e => snd (append_entry e s)) es s).
Proof.
  revert s. induction es as [|e es IH]; simpl; intros s Hwf; [assumption|].
  apply IH. now apply wf_append_entry.
Qed.

End Invariant.

(** ** The loops *)

Section Loops.

Context {K V : Type} `{KeyOrder K}.

Local Abbreviation node := (@node K V).
Local Abbreviation list_t := (@list_t K V).

Lemma kept_cons (h : handle) (hs : list handle) (ns : list node) :
  filter (kept hs) (filter (other_than h) ns) = filter (kept (h :: hs)) ns.
Proof.
  rewrite filter_filter. apply filter_ext. intros n.
  unfold kept, other_than. simpl. now rewrite negb_orb.
Qed.

Lemma other_than_handles (h h' : handle) (ns : list node) :
  h' <> h -> In h' (map fst ns) -> In h' (map fst (filter (other_than h) ns)).
Proof.
  intros Hne Hin. apply in_map_iff in Hin. destruct Hin as [n [Heq Hin]].
  apply in_map_iff. exists n. split; [assumption|].
  apply filter_In. split; [assumption|].
  unfold other_than. apply negb_true_iff, Nat.eqb_neq. congruence.
Qed.

Lemma list_erase_filter (h : handle) (l : list_t) :
  NoDup (map fst (nodes l)) -> In h (map fst (nodes l)) ->
  list_erase h l = Some (mk_list (filter (other_than h) (nodes l)) (fresh l)).
Proof.
  intros Hnd Hin. unfold list_erase. now rewrite remove_node_filter.
Qed.

Lemma erase_loop_spec (hs : list handle) :
  forall (next : iterator) (l : list_t),
  NoDup (map fst (nodes l)) -> NoDup hs -> incl hs (map fst (nodes l)) ->
  exists next',
    erase_loop hs next l =
    Some (next', mk_list (filter (kept hs) (nodes l)) (fresh l)).
Proof.
  induction hs as [|h hs IH]; intros next l Hnd Hhs Hincl; cbn [erase_loop].
  - exists next. destruct l as [ns fr]. simpl. f_equal. f_equal. f_equal.
    symmetry. apply filter_all. apply Forall_forall. reflexivity.
  - inversion Hhs as [|? ? Hnotin Hhs']; subst.
    assert (Hin : In h (map fst (nodes l))) by (apply Hincl; now left).
    destruct (node_after_defined h (nodes l) Hin) as [nx Hnx].
    assert (Hstep : exists n1,
      (if iterator_eqb next End then list_next l (It h) else Some next) = Some n1).
    { destruct (iterator_eqb next End); simpl; eauto. }
    destruct Hstep as [n1 ->]. cbn [bind].
    rewrite (list_erase_filter h l Hnd Hin). cbn [bind].
    destruct (IH n1 (mk_list (filter (other_than h) (nodes l)) (fresh l)))
      as [next' Hloop]; simpl.
    + now apply NoDup_map_filter.
    + assumption.
    + intros h' Hh'. apply other_than_handles; [congruence|].
      apply Hincl. now right.
    + exists next'. rewrite Hloop. simpl. now rewrite kept_cons.
Qed.

Lemma extract_loop_spec (sel : list node) :
  forall (acc : list V) (l : list_t),
  NoDup (map fst (nodes l)) -> NoDup (map fst sel) -> incl sel (nodes l) ->
  extract_loop (map fst sel) acc l =
  Some (acc ++ map node_value sel,
        mk_list (filter (kept (map fst sel)) (nodes l)) (fresh l)).
Proof.
  induction sel as [|[h e] sel IH]; intros acc l Hnd Hsel Hincl;
    cbn [extract_loop map fst list_deref].
  - rewrite app_nil_r. destruct l as [ns fr]. simpl. f_equal. f_equal. f_equal.
    symmetry. apply filter_all. apply Forall_forall. reflexivity.
  - inversion Hsel as [|? ? Hnotin Hsel']; subst.
    assert (Hin : In (h, e) (nodes l)) by (apply Hincl; now left).
    rewrite (lookup_node_In h e (nodes l) Hnd Hin). cbn [bind].
    rewrite (list_erase_filter h l Hnd) by (apply in_map_iff; now exists (h, e)).
    cbn [bind]. rewrite IH; simpl.
    + rewrite kept_cons, <- app_assoc. reflexivity.
    + now apply NoDup_map_filter.
    + assumption.
    + intros n Hn. apply filter_In. split; [apply Hincl; now right|].
      unfold other_than. apply negb_true_iff, Nat.eqb_neq. intros Heq.
      apply Hnotin. rewrite <- Heq. now apply in_map.
Qed.

Lemma update_loop_spec (hs : list handle) (v : V) :
  forall (l : list_t),
  NoDup (map fst (nodes l)) -> incl hs (map fst (nodes l)) ->
  update_loop hs v l =
  Some (mk_list (map (overwritten hs v) (nodes l)) (fresh l)).
Proof.
  induction hs as [|h hs IH]; intros l Hnd Hincl; simpl.
  - destruct l as [ns fr]. simpl. f_equal. f_equal.
    symmetry. rewrite <- (map_id ns) at 2. apply map_ext. reflexivity.
  - assert (Hin : In h (map fst (nodes l))) by (apply Hincl; now left).
    unfold list_assign. rewrite (assign_node_map h v (nodes l) Hnd Hin). simpl.
    assert (Hfst : map fst (map (assigned h v) (nodes l)) = map fst (nodes l)).
    { rewrite map_map. apply map_ext. intros n. apply assigned_handle. }
    rewrite IH; simpl.
    + f_equal. f_equal. rewrite map_map. apply map_ext. intros [h' [k v']].
      unfold overwritten, assigned. simpl.
      destruct (Nat.eqb_spec h' h) as [->|Hne]; simpl; [|reflexivity].
      now destruct (existsb (Nat.eqb h) hs).
    + now rewrite Hfst.
    + rewrite Hfst. intros h' Hh'. apply Hincl. now right.
Qed.

End Loops.

(** ** What each mutating call leaves behind *)

Section Operations.

Context {K V : Type} `{KeyOrder K}.

Local Abbreviation node := (@node K V).
Local Abbreviation ordered_multimap_t := (@ordered_multimap_t K V).

Implicit Types (s : ordered_multimap_t) (k key : K) (h : handle).

Lemma indexed_with_NoDup key s : wf s -> NoDup (indexed_with key s).
Proof.
  intros Hwf. unfold indexed_with. apply NoDup_map_filter.
  now apply wf_table_handles.
Qed.

Lemma indexed_with_live key s :
  wf s -> incl (indexed_with key s) (map fst (nodes (m_list s))).
Proof.
  intros Hwf h Hin. unfold indexed_with in Hin.
  apply in_map_iff in Hin. destruct Hin as [[k' h'] [Heq Hin]].
  simpl in Heq. subst h'. apply filter_In in Hin. destruct Hin as [Hin _].
  destruct (wf_index_In s k' h Hwf Hin) as [v Hv].
  apply in_map_iff. now exists (h, (k', v)).
Qed.

Lemma indexed_with_kept key s (n : node) :
  wf s -> In n (nodes (m_list s)) ->
  kept (indexed_with key s) n = negb (has_key key (index_entry n)).
Proof.
  intros Hwf Hn. unfold kept. f_equal.
  destruct (has_key key (index_entry n)) eqn:Hk.
  - apply existsb_exists. exists (fst n). split; [|apply Nat.eqb_refl].
    unfold indexed_with. apply in_map_iff. exists (index_entry n).
    split; [reflexivity|]. apply filter_In. split; [|assumption].
    now apply wf_node_In.
  - destruct (existsb (Nat.eqb (fst n)) (indexed_with key s)) eqn:Hex; [|reflexivity].
    apply existsb_exists in Hex. destruct Hex as [h' [Hin Heq]].
    apply Nat.eqb_eq in Heq. subst h'.
    unfold indexed_with in Hin. apply in_map_iff in Hin.
    destruct Hin as [[k' h'] [Heq Hin]]. simpl in Heq. subst h'.
    apply filter_In in Hin. destruct Hin as [Hin Hk'].
    destruct (wf_index_In s k' (fst n) Hwf Hin) as [v Hv].
    assert (Hsame : (fst n, (k', v)) = n).
    { apply (NoDup_map_In_eq fst (nodes (m_list s))); auto. apply Hwf. }
    rewrite <- Hsame in Hk. unfold index_entry, node_key in Hk. simpl in Hk.
    exact (eq_trans (eq_sym Hk') Hk).
Qed.

(** The nodes behind the index entries of a key, in index order. *)
Lemma indexed_with_nodes key s :
  wf s ->
  exists sel,
    Permutation (entries_with key s) sel /\
    map fst sel = indexed_with key s /\
    filter (has_key key) (m_table s) = map index_entry sel.
Proof.
  intros Hwf. pose proof (wf_index s Hwf) as Hperm.
  apply (Permutation_filter (has_key key)) in Hperm.
  rewrite map_filter in Hperm. apply Permutation_sym in Hperm.
  apply Permutation_map_inv in Hperm. destruct Hperm as [sel [Heq Hperm]].
  exists sel. repeat split; [exact Hperm| |exact Heq].
  unfold indexed_with. rewrite Heq. symmetry. apply map_snd_index_entry.
Qed.

Lemma restrict_absent key s :
  wf s -> filter (has_key key) (m_table s) = [] ->
  restrict (fun e => negb (has_key key e)) s = s.
Proof.
  intros Hwf Hnone. destruct s as [[ns fr] t]. unfold restrict. simpl in *.
  assert (Ht : Forall (fun e => negb (has_key key e) = true) t).
  { apply Forall_forall. intros e He.
    destruct (has_key key e) eqn:Hk; [|reflexivity].
    assert (Hin : In e (filter (has_key key) t)) by (apply filter_In; tauto).
    rewrite Hnone in Hin. contradiction. }
  f_equal; [f_equal|]; apply filter_all; [|assumption].
  apply Forall_forall. intros n Hn. rewrite Forall_forall in Ht. apply Ht.
  now apply (wf_node_In _ n Hwf).
Qed.

Lemma erased_nodes key s :
  wf s ->
  filter (kept (indexed_with key s)) (nodes (m_list s)) =
  filter (fun n => negb (has_key key (index_entry n))) (nodes (m_list s)).
Proof.
  intros Hwf. apply filter_ext_in. intros n Hn. now apply indexed_with_kept.
Qed.

Lemma erase_key_state key s :
  wf s ->
  exists next,
    erase_key key s = Some (next, restrict (fun e => negb (has_key key e)) s).
Proof.
  intros Hwf. pose proof (wf_sorted s Hwf) as Hso.
  unfold erase_key, table_equal_range.
  destruct (lower_bound key (m_table s) =? upper_bound key (m_table s)) eqn:Hrange.
  - exists End. rewrite restrict_absent; [reflexivity|assumption|].
    now apply equal_range_empty.
  - rewrite equal_range_slice, equal_range_erase by assumption.
    destruct (erase_loop_spec (indexed_with key s) End (m_list s))
      as [next Hloop].
    + apply Hwf.
    + now apply indexed_with_NoDup.
    + now apply indexed_with_live.
    + exists next. unfold indexed_with in Hloop at 1. rewrite Hloop. cbn [bind].
      rewrite erased_nodes by assumption. reflexivity.
Qed.

Lemma extract_state key s :
  wf s ->
  exists sel,
    Permutation (entries_with key s) sel /\
    map fst sel = indexed_with key s /\
    extract key s =
    Some (map node_value sel, restrict (fun e => negb (has_key key e)) s).
Proof.
  intros Hwf. pose proof (wf_sorted s Hwf) as Hso.
  destruct (indexed_with_nodes key s Hwf) as (sel & Hperm & Hfst & Htab).
  exists sel. repeat split; [assumption..|].
  unfold extract, table_equal_range.
  rewrite equal_range_slice, equal_range_erase by assumption.
  fold (indexed_with key s). rewrite <- Hfst.
  rewrite extract_loop_spec.
  - cbn [bind app]. rewrite Hfst, erased_nodes by assumption. reflexivity.
  - apply Hwf.
  - rewrite Hfst. now apply indexed_with_NoDup.
  - intros n Hn. apply (Permutation_in _ (Permutation_sym Hperm)) in Hn.
    unfold entries_with in Hn. apply filter_In in Hn. tauto.
Qed.

Lemma update_absent key (v : V) s :
  key_sorted (m_table s) -> filter (has_key key) (m_table s) = [] ->
  update key v s = Some (insert key v s).
Proof.
  intros Hso Hnone. unfold update, table_equal_range.
  apply (equal_range_empty key _ Hso) in Hnone. now rewrite Hnone.
Qed.

Lemma update_present key (v : V) s h0 (rest : list handle) :
  wf s -> indexed_with key s = h0 :: rest ->
  update key v s = Some (It h0, revalue key v s).
Proof.
  intros Hwf Hidx. pose proof (wf_sorted s Hwf) as Hso.
  unfold update, table_equal_range.
  destruct (lower_bound key (m_table s) =? upper_bound key (m_table s)) eqn:Hrange.
  - apply (equal_range_empty key _ Hso) in Hrange.
    unfold indexed_with in Hidx. rewrite Hrange in Hidx. discriminate.
  - unfold indexed_with in Hidx.
    destruct (filter (has_key key) (m_table s)) as [|e0 erest] eqn:Hf;
      [discriminate|].
    unfold table_handle.
    rewrite (lower_bound_first key (m_table s) e0 erest Hso Hf).
    simpl in Hidx. inversion Hidx; subst. cbn [option_map bind].
    rewrite equal_range_slice by assumption. fold (indexed_with key s).
    rewrite update_loop_spec.
    + cbn [bind]. unfold revalue. do 4 f_equal.
      apply map_ext_in. intros n Hn. unfold overwritten.
      pose proof (indexed_with_kept key s n Hwf Hn) as Hk. unfold kept in Hk.
      apply (f_equal negb) in Hk. rewrite !negb_involutive in Hk.
      now rewrite Hk.
    + apply Hwf.
    + now apply indexed_with_live.
Qed.

Lemma erase_handle_state (i : nat) k h s :
  wf s -> nth_error (m_table s) i = Some (k, h) ->
  list_erase h (m_list s) =
    Some (m_list (restrict (fun e => negb (refers_to h e)) s)) /\
  table_erase i (m_table s) =
    m_table (restrict (fun e => negb (refers_to h e)) s).
Proof.
  intros Hwf Hnth. split.
  - rewrite list_erase_filter; [reflexivity|apply Hwf|].
    apply nth_error_In in Hnth.
    destruct (wf_index_In s k h Hwf Hnth) as [v Hv].
    apply in_map_iff. now exists (h, (k, v)).
  - simpl. apply (table_erase_filter i (k, h)); [|assumption].
    now apply wf_table_handles.
Qed.

Lemma restrict_eta (p : K * handle -> bool) s :
  mk_map (m_list (restrict p s)) (m_table (restrict p s)) = restrict p s.
Proof. reflexivity. Qed.

Lemma erase_it_state (it r : iterator) s s' :
  wf s -> erase_it it s = Some (r, s') ->
  exists h k v h0 rest,
    it = It h /\ In (h, (k, v)) (nodes (m_list s)) /\
    indexed_with k s = h0 :: rest /\
    list_next (m_list s) it = Some r /\
    s' = restrict (fun e => negb (refers_to h0 e)) s.
Proof.
  intros Hwf. pose proof (wf_sorted s Hwf) as Hso.
  unfold erase_it. destruct it as [h|]; [|discriminate].
  cbn [list_deref]. destruct (lookup_node h (nodes (m_list s))) as [[k v]|] eqn:Hl;
    [|discriminate].
  cbn [bind fst]. apply lookup_node_Some in Hl.
  pose proof (wf_node_In s _ Hwf Hl) as Hidx. simpl in Hidx.
  destruct (filter (has_key k) (m_table s)) as [|[k0 h0] erest] eqn:Hf.
  { exfalso. assert (Hin : In (k, h) (filter (has_key k) (m_table s))).
    { apply filter_In. split; [assumption|]. apply key_eqb_refl. }
    rewrite Hf in Hin. contradiction. }
  destruct (table_find_first k (m_table s) _ _ Hso Hf) as [Hfind Hlt].
  rewrite Hfind. apply Nat.lt_neq in Hlt. apply Nat.eqb_neq in Hlt. rewrite Hlt.
  pose proof (lower_bound_first k (m_table s) _ _ Hso Hf) as Hnth.
  destruct (erase_handle_state _ k0 h0 s Hwf Hnth) as [Hle Hte].
  unfold table_handle. rewrite Hnth. cbn [option_map snd].
  destruct (list_next (m_list s) (It h)) as [it'|] eqn:Hnext; [|discriminate].
  cbn [bind]. rewrite Hle. cbn [bind]. rewrite Hte, restrict_eta.
  intros Heq. inversion Heq; subst.
  exists h, k, v, h0, (map snd erest). repeat split; try assumption.
  unfold indexed_with. now rewrite Hf.
Qed.

Lemma erase_it_defined h (e : list_entry_t) s :
  wf s -> In (h, e) (nodes (m_list s)) ->
  exists r s', erase_it (It h) s = Some (r, s').
Proof.
  intros Hwf Hin. pose proof (wf_sorted s Hwf) as Hso.
  unfold erase_it. cbn [list_deref].
  rewrite (lookup_node_In h e _ (wf_handles s Hwf) Hin). cbn [bind].
  destruct (table_find (fst e) (m_table s) =? length (m_table s)) eqn:Hend; [eauto|].
  destruct (node_after_defined h (nodes (m_list s))) as [it' Hit'].
  { apply in_map_iff. now exists (h, e). }
  cbn [list_next]. rewrite Hit'. cbn [bind].
  apply Nat.eqb_neq in Hend.
  assert (Hlt : table_find (fst e) (m_table s) < length (m_table s)).
  { unfold table_find in *.
    destruct (nth_error (m_table s) (lower_bound (fst e) (m_table s)))
      as [[k' h']|] eqn:Hn; [|contradiction].
    destruct (key_lt (fst e) k'); [contradiction|].
    apply nth_error_Some. congruence. }
  destruct (nth_error (m_table s) (table_find (fst e) (m_table s)))
    as [[k0 h0]|] eqn:Hnth.
  - destruct (erase_handle_state _ k0 h0 s Hwf Hnth) as [Hle Hte].
    unfold table_handle. rewrite Hnth. cbn [option_map snd bind].
    rewrite Hle. cbn [bind]. eauto.
  - apply nth_error_None in Hnth. lia.
Qed.

Lemma erase_value_loop_state (value_eq : V -> V -> bool) (v : V) s :
  wf s ->
  forall (hs : list handle) (i : nat),
  (forall j h, nth_error hs j = Some h ->
               exists k, nth_error (m_table s) (i + j) = Some (k, h)) ->
  exists r s',
    erase_value_loop value_eq v hs i s = Some (r, s') /\
    (s' = s \/ exists h, s' = restrict (fun e => negb (refers_to h e)) s).
Proof.
  intros Hwf. induction hs as [|h hs IH]; intros i Hpos; cbn [erase_value_loop].
  - eauto.
  - destruct (Hpos 0 h eq_refl) as [k Hnth]. rewrite Nat.add_0_r in Hnth.
    pose proof (nth_error_In _ _ Hnth) as Hin.
    destruct (wf_index_In s k h Hwf Hin) as [v' Hv'].
    cbn [list_deref]. rewrite (lookup_node_In h _ _ (wf_handles s Hwf) Hv').
    cbn [bind snd]. destruct (value_eq v' v).
    + destruct (erase_handle_state _ k h s Hwf Hnth) as [Hle Hte].
      rewrite Hle. cbn [bind]. rewrite Hte, restrict_eta.
      eexists _, _. split; [reflexivity|]. right. now exists h.
    + apply IH. intros j h' Hj. specialize (Hpos (S j) h' Hj).
      now rewrite Nat.add_succ_r in Hpos.
Qed.

Lemma erase_key_value_state (value_eq : V -> V -> bool) key (v : V) s :
  wf s ->
  exists r s',
    erase_key_value value_eq key v s = Some (r, s') /\
    (s' = s \/ exists h, s' = restrict (fun e => negb (refers_to h e)) s).
Proof.
  intros Hwf. unfold erase_key_value, table_equal_range.
  apply erase_value_loop_state; [assumption|].
  intros j h Hj. unfold table_slice in Hj.
  rewrite nth_error_map, nth_error_firstn in Hj.
  destruct (j <? _); [|discriminate].
  rewrite nth_error_skipn in Hj.
  destruct (nth_error (m_table s) (lower_bound key (m_table s) + j)) as [[k' h']|];
    [|discriminate].
  simpl in Hj. inversion Hj; subst. eauto.
Qed.

End Operations.

(** ** Preservation of the invariants *)

Section Preservation.

Context {K V : Type} `{KeyOrder K}.

Local Abbreviation node := (@node K V).
Local Abbreviation ordered_multimap_t := (@ordered_multimap_t K V).

Implicit Types (s : ordered_multimap_t) (k key : K) (h : handle).

Lemma aligned_empty : aligned (@empty K V).
Proof. intros key. reflexivity. Qed.

Lemma aligned_clear s : aligned (clear s).
Proof. intros key. reflexivity. Qed.

Lemma aligned_restrict (p : K * handle -> bool) s :
  aligned s -> aligned (restrict p s).
Proof.
  intros Hal key. specialize (Hal key).
  unfold aligned_at, indexed_with, entries_with in *. simpl.
  set (q := fun h : handle => p (key, h)).
  transitivity (filter q (map snd (filter (has_key key) (m_table s)))).
  - rewrite filter_filter,
      (filter_ext _ (fun x => has_key key x && p x)) by (intros; apply andb_comm).
    rewrite <- filter_filter. apply map_filter_through.
    intros [k' h'] Hin. apply filter_In in Hin. destruct Hin as [_ Hk].
    apply has_key_eq in Hk. simpl in Hk. subst k'. reflexivity.
  - rewrite Hal. symmetry.
    rewrite filter_filter,
      (filter_ext _ (fun n => has_key key (index_entry n) && p (index_entry n)))
      by (intros; apply andb_comm).
    rewrite <- (filter_filter (fun n => p (index_entry n))).
    apply map_filter_through.
    intros n Hin. apply filter_In in Hin. destruct Hin as [_ Hk].
    apply has_key_eq in Hk. unfold index_entry in *. simpl in Hk.
    now rewrite Hk.
Qed.

Lemma aligned_append_entry (e : list_entry_t) s :
  wf s -> aligned s -> aligned (snd (append_entry e s)).
Proof.
  intros Hwf Hal key. specialize (Hal key).
  unfold aligned_at, indexed_with, entries_with in *. simpl.
  rewrite table_insert_has_key by apply Hwf.
  rewrite filter_app, !map_app, Hal. f_equal. simpl.
  change (has_key key (index_entry (fresh (m_list s), e)))
    with (key_eqb (fst e) key).
  now destruct (key_eqb (fst e) key).
Qed.

Lemma aligned_append_all (es : list list_entry_t) s :
  wf s -> aligned s ->
  aligned (fold_left (fun s e => snd (append_entry e s)) es s).
Proof.
  revert s. induction es as [|e es IH]; simpl; intros s Hwf Hal; [assumption|].
  apply IH; [now apply wf_append_entry|now apply aligned_append_entry].
Qed.

Lemma revalue_index key (v : V) (ns : list node) :
  map index_entry
    (map (fun n => if has_key key (index_entry n)
                   then (fst n, (node_key n, v)) else n) ns) =
  map index_entry ns.
Proof.
  rewrite map_map. apply map_ext. intros n.
  now destruct (has_key key (index_entry n)).
Qed.

(** Rewriting values leaves both invariants alone. *)
Lemma wf_same_index (ns' : list node) s :
  map index_entry ns' = map index_entry (nodes (m_list s)) ->
  wf s -> wf (mk_map (mk_list ns' (fresh (m_list s))) (m_table s)).
Proof.
  intros Hsame [Hnd Hfr Hso Hperm].
  assert (Hfst : map fst ns' = map fst (nodes (m_list s))).
  { now rewrite <- !map_snd_index_entry, Hsame. }
  split; simpl.
  - now rewrite Hfst.
  - apply Forall_map with (f := fst) (P := fun h => h < fresh (m_list s)).
    rewrite Hfst. now apply Forall_map.
  - assumption.
  - now rewrite Hsame.
Qed.

Lemma aligned_same_index (ns' : list node) s :
  map index_entry ns' = map index_entry (nodes (m_list s)) ->
  aligned s -> aligned (mk_map (mk_list ns' (fresh (m_list s))) (m_table s)).
Proof.
  intros Hsame Hal key. specialize (Hal key).
  unfold aligned_at, indexed_with, entries_with in *. simpl. rewrite Hal.
  rewrite <- !map_snd_index_entry. f_equal.
  rewrite <- !(map_filter index_entry (has_key key)).
  now rewrite Hsame.
Qed.

Lemma wf_revalue key (v : V) s : wf s -> wf (revalue key v s).
Proof. apply wf_same_index, revalue_index. Qed.

Lemma aligned_revalue key (v : V) s : aligned s -> aligned (revalue key v s).
Proof. apply aligned_same_index, revalue_index. Qed.

Lemma assign_state (it : iterator) (v : V) s s' :
  wf s -> assign it v s = Some s' ->
  exists ns',
    s' = mk_map (mk_list ns' (fresh (m_list s))) (m_table s) /\
    map index_entry ns' = map index_entry (nodes (m_list s)).
Proof.
  intros Hwf. destruct it as [h|]; [|discriminate].
  unfold assign, list_assign.
  destruct (assign_node h v (nodes (m_list s))) as [ns'|] eqn:Has; [|discriminate].
  cbn [bind]. intros Heq. inversion Heq; subst. exists ns'. split; [reflexivity|].
  rewrite assign_node_map in Has;
    [|apply Hwf|now apply (assign_node_handles h v _ ns')].
  inversion Has; subst. rewrite map_map. apply map_ext. intros n.
  unfold index_entry, node_key. now rewrite assigned_key, assigned_handle.
Qed.

Lemma update_preserves (P : ordered_multimap_t -> Prop) key (v : V) s
  (r : iterator) s' :
  wf s -> update key v s = Some (r, s') ->
  P (snd (append_entry (key, v) s)) -> P (revalue key v s) -> P s'.
Proof.
  intros Hwf Hup Hins Hrev.
  destruct (indexed_with key s) as [|h0 rest] eqn:Hidx.
  - rewrite update_absent in Hup; [|apply Hwf|].
    + inversion Hup; subst. exact Hins.
    + unfold indexed_with in Hidx. now apply map_eq_nil in Hidx.
  - rewrite (update_present key v s h0 rest Hwf Hidx) in Hup.
    inversion Hup; subst. exact Hrev.
Qed.

Lemma reachable_wf (sorting : bool) s : reachable sorting s -> wf s.
Proof.
  induction 1 as
    [ | s _ IH | s _ IH | s _ IH | s _ IH | key v s _ IH | A c key a s _ IH
    | it v s s' _ IH Hop
    | key v s r s' _ IH Hop | key s r s' _ IH Hop | it s r s' _ IH Hop
    | veq key v s r s' _ IH Hop | key s r s' _ IH Hop
    | s o _ IHs _ IHo | s o _ IHs _ IHo | f s _ _ IH ].
  - apply wf_empty.
  - apply wf_append_all, wf_empty.
  - assumption.
  - apply wf_clear.
  - apply wf_clear.
  - now apply wf_append_entry.
  - now apply wf_append_entry.
  - destruct (assign_state it v s s' IH Hop) as (ns' & -> & Hsame).
    now apply wf_same_index.
  - apply (update_preserves wf key v s r s' IH Hop);
      [now apply wf_append_entry|now apply wf_revalue].
  - destruct (erase_key_state key s IH) as [next Hst].
    rewrite Hst in Hop. inversion Hop; subst. now apply wf_restrict.
  - destruct (erase_it_state it r s s' IH Hop) as (h & k & v & h0 & rest & Hst).
    destruct Hst as (_ & _ & _ & _ & ->). now apply wf_restrict.
  - destruct (erase_key_value_state veq key v s IH) as (r0 & s0 & Hst & Hcase).
    rewrite Hst in Hop. inversion Hop; subst.
    destruct Hcase as [->|[h ->]]; [assumption|now apply wf_restrict].
  - destruct (extract_state key s IH) as (sel & _ & _ & Hst).
    rewrite Hst in Hop. inversion Hop; subst. now apply wf_restrict.
  - now apply wf_append_all.
  - apply wf_clear.
  - now apply wf_sort.
Qed.

Lemma reachable_aligned s : reachable false s -> aligned s.
Proof.
  induction 1 as
    [ | s Hr IH | s Hr IH | s Hr IH | s Hr IH | key v s Hr IH | A c key a s Hr IH
    | it v s s' Hr IH Hop
    | key v s r s' Hr IH Hop | key s r s' Hr IH Hop | it s r s' Hr IH Hop
    | veq key v s r s' Hr IH Hop | key s r s' Hr IH Hop
    | s o Hr IHs _ IHo | s o Hr IHs _ IHo | f s Hf _ IH ];
    try (pose proof (reachable_wf _ _ Hr) as Hwf).
  - apply aligned_empty.
  - apply aligned_append_all; [apply wf_empty|apply aligned_empty].
  - assumption.
  - apply aligned_clear.
  - apply aligned_clear.
  - now apply aligned_append_entry.
  - now apply aligned_append_entry.
  - destruct (assign_state it v s s' Hwf Hop) as (ns' & -> & Hsame).
    now apply aligned_same_index.
  - apply (update_preserves aligned key v s r s' Hwf Hop);
      [now apply aligned_append_entry|now apply aligned_revalue].
  - destruct (erase_key_state key s Hwf) as [next Hst].
    rewrite Hst in Hop. inversion Hop; subst. now apply aligned_restrict.
  - destruct (erase_it_state it r s s' Hwf Hop) as (h & k & v & h0 & rest & Hst).
    destruct Hst as (_ & _ & _ & _ & ->). now apply aligned_restrict.
  - destruct (erase_key_value_state veq key v s Hwf) as (r0 & s0 & Hst & Hcase).
    rewrite Hst in Hop. inversion Hop; subst.
    destruct Hcase as [->|[h ->]]; [assumption|now apply aligned_restrict].
  - destruct (extract_state key s Hwf) as (sel & _ & _ & Hst).
    rewrite Hst in Hop. inversion Hop; subst. now apply aligned_restrict.
  - now apply aligned_append_all.
  - apply aligned_clear.
  - discriminate.
Qed.

End Preservation.

(** ** Traversal visits the nodes in sequence order *)

Section Traversal.

Context {K V : Type}.

Local Abbreviation node := (@node K V).

Lemma iterator_eqb_refl (it : iterator) : iterator_eqb it it = true.
Proof. destruct it; simpl; [apply Nat.eqb_refl|reflexivity]. Qed.

Lemma NoDup_split_handle (pre suf : list node) (h : handle) (e : list_entry_t) :
  NoDup (map fst (pre ++ (h, e) :: suf)) ->
  ~ In h (map fst pre) /\ ~ In h (map fst suf).
Proof.
  rewrite map_app. simpl. intros Hnd. apply NoDup_remove_2 in Hnd.
  split; intros Hin; apply Hnd; apply in_or_app; auto.
Qed.

Lemma node_after_middle (pre suf : list node) (h : handle) (e : list_entry_t) :
  ~ In h (map fst pre) ->
  node_after h (pre ++ (h, e) :: suf) = Some (first_of suf).
Proof.
  induction pre as [|[h1 e1] pre IH]; simpl; intros Hnotin.
  - rewrite Nat.eqb_refl. now destruct suf as [|[h2 e2] suf].
  - destruct (Nat.eqb_spec h h1) as [->|Hne]; [exfalso; auto|].
    apply IH. auto.
Qed.

Lemma lookup_node_middle (pre suf : list node) (h : handle) (e : list_entry_t) :
  ~ In h (map fst pre) -> lookup_node h (pre ++ (h, e) :: suf) = Some e.
Proof.
  induction pre as [|[h1 e1] pre IH]; simpl; intros Hnotin.
  - now rewrite Nat.eqb_refl.
  - destruct (Nat.eqb_spec h h1) as [->|Hne]; [exfalso; auto|].
    apply IH. auto.
Qed.

Lemma last_node_snoc (pre : list node) (h : handle) (e : list_entry_t) :
  last_node (pre ++ [(h, e)]) = Some (It h).
Proof.
  induction pre as [|[h1 e1] pre IH]; simpl; [reflexivity|].
  rewrite IH. now destruct pre.
Qed.

Lemma node_before_middle (pre suf : list node) (h h2 : handle)
  (e e2 : list_entry_t) :
  ~ In h2 (map fst pre) -> h2 <> h ->
  node_before h2 (pre ++ (h, e) :: (h2, e2) :: suf) = Some (It h).
Proof.
  induction pre as [|[h1 e1] pre IH]; intros Hnotin Hne.
  - simpl. apply Nat.eqb_neq in Hne. now rewrite Hne, Nat.eqb_refl.
  - assert (Hne1 : (h2 =? h1) = false).
    { apply Nat.eqb_neq. intros ->. apply Hnotin. now left. }
    assert (Hrest : ~ In h2 (map fst pre)) by (intros Hin; apply Hnotin; now right).
    specialize (IH Hrest Hne).
    destruct pre as [|[h3 e3] pre].
    + simpl. apply Nat.eqb_neq in Hne. now rewrite Hne1, Hne, Nat.eqb_refl.
    + assert (Hne3 : (h2 =? h3) = false).
      { apply Nat.eqb_neq. intros ->. apply Hrest. now left. }
      change (node_before h2 (((h1, e1) :: (h3, e3) :: pre) ++ (h, e) :: (h2, e2) :: suf))
        with (if h2 =? h1 then None
              else if h2 =? h3 then Some (It h1)
              else node_before h2 (((h3, e3) :: pre) ++ (h, e) :: (h2, e2) :: suf)).
      now rewrite Hne1, Hne3.
Qed.

Lemma walk_suffix (fr : handle) (suf : list node) :
  forall (pre : list node) (fuel : nat),
  NoDup (map fst (pre ++ suf)) -> length suf < fuel ->
  walk fuel (mk_list (pre ++ suf) fr) (first_of suf) End = Some (map snd suf).
Proof.
  induction suf as [|[h e] suf IH]; intros pre fuel Hnd Hfuel;
    (destruct fuel as [|fuel]; [inversion Hfuel|]).
  - reflexivity.
  - destruct (NoDup_split_handle pre suf h e Hnd) as [Hpre _].
    cbn [walk first_of iterator_eqb list_deref list_next nodes].
    rewrite lookup_node_middle, node_after_middle by assumption.
    cbn [bind].
    specialize (IH (pre ++ [(h, e)]) fuel).
    rewrite <- app_assoc in IH. cbn [app] in IH.
    rewrite IH; [reflexivity|assumption|simpl in Hfuel; lia].
Qed.

Lemma first_of_distinct (pre suf : list node) (h : handle) (e : list_entry_t) :
  NoDup (map fst ((pre ++ [(h, e)]) ++ suf)) ->
  iterator_eqb (first_of suf) (first_of ((pre ++ [(h, e)]) ++ suf)) = false.
Proof.
  intros Hnd. destruct suf as [|[h2 e2] suf].
  - now destruct pre as [|[h1 e1] pre].
  - destruct (NoDup_split_handle (pre ++ [(h, e)]) suf h2 e2 Hnd) as [Hnotin _].
    rewrite <- app_assoc. simpl.
    destruct pre as [|[h1 e1] pre]; simpl in *; apply Nat.eqb_neq; intros ->;
      apply Hnotin; now left.
Qed.

Lemma walk_back_prefix (fr : handle) (pre : list node) :
  forall (suf : list node) (fuel : nat),
  NoDup (map fst (pre ++ suf)) -> length pre < fuel ->
  walk_back fuel (mk_list (pre ++ suf) fr) (first_of suf) =
  Some (rev (map snd pre)).
Proof.
  induction pre as [|[h e] pre IH] using rev_ind; intros suf fuel Hnd Hfuel;
    (destruct fuel as [|fuel]; [inversion Hfuel|]).
  - cbn [walk_back]. unfold list_begin. simpl.
    change (match suf with [] => End | (h, _) :: _ => It h end) with (first_of suf).
    now rewrite iterator_eqb_refl.
  - cbn [walk_back]. unfold list_begin. cbn [nodes].
    change (match (pre ++ [(h, e)]) ++ suf with [] => End | (h0, _) :: _ => It h0 end)
      with (first_of ((pre ++ [(h, e)]) ++ suf)).
    rewrite (first_of_distinct pre suf h e Hnd).
    assert (Hnd' : NoDup (map fst (pre ++ (h, e) :: suf)))
      by (now rewrite <- app_assoc in Hnd).
    destruct (NoDup_split_handle pre suf h e Hnd') as [Hpre Hsuf].
    match goal with
    | |- context [list_prev ?l ?b] => assert (Hprev : list_prev l b = Some (It h))
    end.
    { destruct suf as [|[h2 e2] suf]; simpl.
      - rewrite app_nil_r. apply last_node_snoc.
      - rewrite <- app_assoc. simpl.
        destruct (NoDup_split_handle (pre ++ [(h, e)]) suf h2 e2 Hnd) as [Hn2 _].
        rewrite map_app in Hn2. simpl in Hn2.
        apply node_before_middle.
        + intros Hin. apply Hn2. apply in_or_app. now left.
        + intros ->. apply Hn2. apply in_or_app. right. now left. }
    rewrite Hprev. cbn [bind list_deref nodes].
    rewrite <- app_assoc. cbn [app].
    rewrite lookup_node_middle by assumption. cbn [bind].
    change (It h) with (first_of ((h, e) :: suf)).
    rewrite IH.
    + rewrite map_app, rev_app_distr. reflexivity.
    + assumption.
    + rewrite length_app in Hfuel. simpl in Hfuel. lia.
Qed.

End Traversal.

Section TraversalSpec.

Context {K V : Type} `{KeyOrder K}.

Local Abbreviation ordered_multimap_t := (@ordered_multimap_t K V).

Lemma forward_to_vector (s : ordered_multimap_t) :
  wf s -> forward s = Some (to_vector s).
Proof.
  intros Hwf. unfold forward, range_entries, begin, end_, list_begin, size, list_size.
  destruct s as [[ns fr] t]. simpl.
  change (match ns with [] => End | (h, _) :: _ => It h end) with (first_of ns).
  apply (walk_suffix fr ns [] (S (length ns))); [apply Hwf|lia].
Qed.

Lemma backward_to_vector (s : ordered_multimap_t) :
  wf s -> backward s = Some (rev (to_vector s)).
Proof.
  intros Hwf. unfold backward, size, list_size.
  destruct s as [[ns fr] t]. simpl nodes. simpl m_list.
  pose proof (walk_back_prefix fr ns [] (S (length ns))) as Hw.
  rewrite app_nil_r in Hw. apply Hw; [apply Hwf|lia].
Qed.

End TraversalSpec.

(** * The specification, claim by claim *)

(** Split a conjunction into its conjuncts, and nothing else. *)
Ltac split_all := repeat match goal with |- _ /\ _ => split end.

Section Queries.

Context {K V : Type} `{KeyOrder K}.

Local Abbreviation node := (@node K V).
Local Abbreviation ordered_multimap_t := (@ordered_multimap_t K V).

Implicit Types (s : ordered_multimap_t) (k key : K) (h : handle).

(** [count] is the number of entries with the key. *)
Lemma count_entries key s :
  wf s -> count key s = length (entries_with key s).
Proof.
  intros Hwf. unfold count, table_equal_range.
  rewrite equal_range_count by apply Hwf.
  rewrite <- (Permutation_length
               (Permutation_filter (has_key key) _ _ (wf_index s Hwf))).
  now rewrite map_filter, length_map.
Qed.

Lemma entries_with_restrict key s :
  entries_with key (restrict (fun e => negb (has_key key e)) s) = [].
Proof.
  unfold entries_with, restrict. simpl. rewrite filter_filter.
  apply filter_none. apply Forall_forall. intros n _.
  now destruct (has_key key (index_entry n)).
Qed.

Lemma absent_in_index key s :
  wf s -> entries_with key s = [] -> filter (has_key key) (m_table s) = [].
Proof.
  intros Hwf Hnone.
  pose proof (count_entries key s Hwf) as Hc. rewrite Hnone in Hc.
  unfold count, table_equal_range in Hc.
  rewrite equal_range_count in Hc by apply Hwf.
  now apply length_zero_iff_nil.
Qed.

Lemma has_absent key s :
  wf s -> entries_with key s = [] -> has key s = false.
Proof.
  intros Hwf Hnone. unfold has.
  rewrite table_find_absent; [now rewrite Nat.eqb_refl|apply Hwf|].
  now apply absent_in_index.
Qed.

Lemma to_vector_append_all (es : list list_entry_t) s :
  to_vector (fold_left (fun s e => snd (append_entry e s)) es s) =
  to_vector s ++ es.
Proof.
  revert s. induction es as [|e es IH]; intros s; simpl.
  - now rewrite app_nil_r.
  - rewrite IH. unfold to_vector. simpl. rewrite map_app. simpl.
    now rewrite <- app_assoc.
Qed.

Lemma lookup_node_absent h (ns : list node) :
  ~ In h (map fst ns) -> lookup_node h ns = None.
Proof.
  intros Hnotin. destruct (lookup_node h ns) as [e|] eqn:Hl; [|reflexivity].
  exfalso. apply Hnotin. apply lookup_node_Some in Hl.
  apply in_map_iff. now exists (h, e).
Qed.

Lemma fresh_not_live s :
  wf s -> ~ In (fresh (m_list s)) (map fst (nodes (m_list s))).
Proof.
  intros Hwf Hin. apply in_map_iff in Hin. destruct Hin as [n [Heq Hin]].
  pose proof (wf_fresh s Hwf) as Hfr. rewrite Forall_forall in Hfr.
  specialize (Hfr n Hin). simpl in Hfr. exact (Nat.lt_neq _ _ Hfr Heq).
Qed.

(** What one appending call does to a well-formed container. *)
Lemma append_entry_spec (e : list_entry_t) s :
  wf s ->
  let '(it, s') := append_entry e s in
  to_vector s' = to_vector s ++ [e] /\
  list_deref (m_list s') it = Some e /\
  list_deref (m_list s) it = None /\
  back s' = Some it /\
  list_next (m_list s') it = Some End /\
  wf s'.
Proof.
  intros Hwf. pose proof (fresh_not_live s Hwf) as Hnew.
  unfold append_entry, list_push_back. cbn [fst snd m_list nodes list_deref].
  split_all.
  - unfold to_vector. simpl. now rewrite map_app.
  - now apply lookup_node_middle.
  - now apply lookup_node_absent.
  - unfold back. simpl. apply last_node_snoc.
  - simpl. now rewrite node_after_middle.
  - now apply (wf_append_entry e s).
Qed.

End Queries.

(** ** C8: insertion order *)

Section InsertionOrder.

Context {K V Args : Type} `{KeyOrder K}.

Local Abbreviation ordered_multimap_t := (@ordered_multimap_t K V).
Local Abbreviation call := (@call K V Args).

(** [construct] is the constructor of [Value] that [emplace] forwards to. *)
Variable construct : Args -> V.

Lemma perform_append (c : call) (s : ordered_multimap_t) :
  perform construct c s = append_entry (entry_of construct c) s.
Proof. now destruct c. Qed.

Lemma perform_all_append (cs : list call) (s : ordered_multimap_t) :
  perform_all construct cs s =
  fold_left (fun s e => snd (append_entry e s))
            (map (entry_of construct) cs) s.
Proof.
  unfold perform_all. revert s.
  induction cs as [|c cs IH]; intros s; simpl; [reflexivity|].
  now rewrite IH, perform_append.
Qed.

(** C8. Whatever sequence of [insert] and [emplace] calls is made on an
    empty container, forward iteration yields the entries in call order
    and reverse iteration yields them in the opposite order; a further
    call appends its entry after all of these and returns the iterator of
    that new last entry, which was not an entry before. *)
Theorem insertion_order (cs : list call) :
  let s := perform_all construct cs empty in
  forward s = Some (map (entry_of construct) cs) /\
  backward s = Some (rev (map (entry_of construct) cs)) /\
  forall c : call,
    let '(it, s') := perform construct c s in
    to_vector s' = to_vector s ++ [entry_of construct c] /\
    list_deref (m_list s') it = Some (entry_of construct c) /\
    list_deref (m_list s) it = None /\
    back s' = Some it /\
    list_next (m_list s') it = Some End /\
    forward s' = Some (map (entry_of construct) (cs ++ [c])).
Proof.
  intros s.
  assert (Hwf : wf s).
  { unfold s. rewrite perform_all_append. apply wf_append_all, wf_empty. }
  assert (Hvec : to_vector s = map (entry_of construct) cs).
  { unfold s. rewrite perform_all_append. now rewrite to_vector_append_all. }
  split; [|split].
  - now rewrite forward_to_vector, Hvec.
  - now rewrite backward_to_vector, Hvec.
  - intros c. rewrite perform_append.
    pose proof (append_entry_spec (entry_of construct c) s Hwf) as Hspec.
    destruct (append_entry (entry_of construct c) s) as [it s'].
    destruct Hspec as (Hv & Hd & Hn & Hb & Hx & Hwf').
    split_all; try assumption.
    rewrite forward_to_vector, Hv, Hvec, map_app by assumption. reflexivity.
Qed.

End InsertionOrder.

(** ** C9: merge *)

Section Merge.

Context {K V : Type} `{KeyOrder K}.

Local Abbreviation ordered_multimap_t := (@ordered_multimap_t K V).

Lemma entries_with_to_vector key (s : ordered_multimap_t) :
  map snd (entries_with key s) =
  filter (fun e => key_eqb (fst e) key) (to_vector s).
Proof.
  unfold entries_with, to_vector. now rewrite map_filter.
Qed.

(** C9. Merging a well-formed container [other] into a well-formed
    container [this] leaves in [this] its old entries followed by the old
    entries of [other] in their order, with the index covering all of them
    (the result is well-formed and every key counts its entries from both),
    and leaves [other] empty. *)
Theorem merge_appends (this other : ordered_multimap_t) :
  wf this -> wf other ->
  let this' := fst (merge this other) in
  let other' := snd (merge this other) in
  to_vector this' = to_vector this ++ to_vector other /\
  forward this' = Some (to_vector this ++ to_vector other) /\
  wf this' /\
  (forall key, count key this' = count key this + count key other) /\
  size other' = 0 /\ to_vector other' = [] /\ m_table other' = [] /\
  begin other' = end_ other'.
Proof.
  intros Hthis Hother this' other'.
  assert (Hwf : wf this') by (now apply wf_append_all).
  assert (Hvec : to_vector this' = to_vector this ++ to_vector other)
    by (apply to_vector_append_all).
  split_all; try assumption; try reflexivity.
  - now rewrite forward_to_vector, Hvec.
  - intros key. rewrite !count_entries by assumption.
    rewrite <- (length_map snd (entries_with key this')),
            <- (length_map snd (entries_with key this)),
            <- (length_map snd (entries_with key other)).
    rewrite !entries_with_to_vector, Hvec, filter_app, length_app.
    reflexivity.
Qed.

End Merge.

(** ** C7: erase by key *)

Section EraseKey.

Context {K V : Type} `{KeyOrder K}.

Local Abbreviation ordered_multimap_t := (@ordered_multimap_t K V).

(** C7. On a well-formed container [erase(key)] returns, and afterwards
    [count(key)] is 0 and [has(key)] is false, while the nodes that remain
    are exactly the nodes with another key: the same handles, keys and
    values, in the same relative order. *)
Theorem erase_key_complete (key : K) (s : ordered_multimap_t) :
  wf s ->
  exists next s',
    erase_key key s = Some (next, s') /\
    count key s' = 0 /\
    has key s' = false /\
    nodes (m_list s') =
      filter (fun n => negb (key_eqb (node_key n) key)) (nodes (m_list s)) /\
    to_vector s' =
      filter (fun e => negb (key_eqb (fst e) key)) (to_vector s) /\
    wf s'.
Proof.
  intros Hwf. destruct (erase_key_state key s Hwf) as [next Hst].
  pose proof (wf_restrict (fun e => negb (has_key key e)) s Hwf) as Hwf'.
  exists next, (restrict (fun e => negb (has_key key e)) s).
  split_all; try assumption.
  - rewrite count_entries by assumption. now rewrite entries_with_restrict.
  - apply has_absent; [assumption|apply entries_with_restrict].
  - reflexivity.
  - unfold to_vector. cbn [restrict m_list nodes]. now rewrite map_filter.
Qed.

End EraseKey.

(** ** C10: front of an empty container *)

Section Front.

Context {K V : Type} `{KeyOrder K}.

(** C10. On a container without entries [front()] is [end()]. *)
Theorem front_empty_is_end (s : @ordered_multimap_t K V) :
  size s = 0 -> front s = end_ s.
Proof.
  unfold size, list_size, front, end_, list_begin.
  destruct (nodes (m_list s)) as [|[h e] ns]; [reflexivity|discriminate].
Qed.

End Front.

(** ** C3: the index and the list describe the same entries *)

Section Correspondence.

Context {K V : Type} `{KeyOrder K}.

Local Abbreviation ordered_multimap_t := (@ordered_multimap_t K V).

Lemma filter_refers_to (t : @table_t K) (k : K) (h : handle) :
  NoDup (map snd t) -> In (k, h) t -> filter (refers_to h) t = [(k, h)].
Proof.
  induction t as [|[k1 h1] t IH]; simpl; intros Hnd Hin; [contradiction|].
  inversion Hnd as [|? ? Hnotin Hnd']; subst.
  unfold refers_to at 1. simpl.
  destruct Hin as [Heq|Hin].
  - inversion Heq; subst. rewrite Nat.eqb_refl. f_equal.
    apply filter_none. apply Forall_forall. intros e He.
    unfold refers_to. apply Nat.eqb_neq. intros Hsame.
    apply Hnotin. rewrite <- Hsame. now apply in_map.
  - destruct (Nat.eqb_spec h1 h) as [->|Hne]; [|auto].
    exfalso. apply Hnotin. change h with (snd (k, h)). now apply in_map.
Qed.

Lemma wf_corresponds (s : ordered_multimap_t) : wf s -> corresponds s.
Proof.
  intros Hwf. split; [|split].
  - intros h k v Hin. apply filter_refers_to.
    + now apply wf_table_handles.
    + apply (wf_node_In s (h, (k, v)) Hwf Hin).
  - intros k h Hin. destruct (wf_index_In s k h Hwf Hin) as [v Hv].
    exists v. simpl. apply lookup_node_In; [apply Hwf|assumption].
  - apply Hwf.
Qed.

(** C3. After any sequence of constructor calls, member calls and value
    assignments through iterators (with or without [sort]), none of them
    undefined, the list and the table are in one-to-one correspondence. *)
Theorem index_correspondence (sorting : bool) (s : ordered_multimap_t) :
  reachable sorting s -> corresponds s.
Proof.
  intros Hreach. apply wf_corresponds. exact (reachable_wf sorting s Hreach).
Qed.

End Correspondence.

(** ** C4: extract *)

Section Extract.

Context {K V : Type} `{KeyOrder K}.

Local Abbreviation node := (@node K V).
Local Abbreviation ordered_multimap_t := (@ordered_multimap_t K V).

Lemma same_handles_same_nodes (ns : list node) :
  NoDup (map fst ns) ->
  forall l1 l2 : list node,
  incl l1 ns -> incl l2 ns -> map fst l1 = map fst l2 -> l1 = l2.
Proof.
  intros Hnd. induction l1 as [|x l1 IH]; intros [|y l2] H1 H2 Heq;
    try discriminate; [reflexivity|].
  simpl in Heq. inversion Heq as [[Hxy Hrest]].
  f_equal.
  - apply (NoDup_map_In_eq fst ns); auto; [apply H1|apply H2]; now left.
  - apply IH; auto; intros n Hn; [apply H1|apply H2]; now right.
Qed.

(** C4, amended. On a well-formed container [extract(key)] returns the
    values of the entries with that key, each once, in the order of the
    key's index entries; that is their sequence order whenever the index
    lists them in sequence order, as it does in every state reached without
    [sort].  Afterwards [count(key)] is 0 and exactly the nodes with another
    key remain, unchanged and in the same relative order. *)
Theorem extract_spec (key : K) (s : ordered_multimap_t) :
  wf s ->
  exists sel s',
    extract key s = Some (map node_value sel, s') /\
    Permutation (entries_with key s) sel /\
    map fst sel = indexed_with key s /\
    (aligned_at key s -> sel = entries_with key s) /\
    (reachable false s -> sel = entries_with key s) /\
    count key s' = 0 /\
    nodes (m_list s') =
      filter (fun n => negb (key_eqb (node_key n) key)) (nodes (m_list s)) /\
    wf s'.
Proof.
  intros Hwf. destruct (extract_state key s Hwf) as (sel & Hperm & Hfst & Hst).
  pose proof (wf_restrict (fun e => negb (has_key key e)) s Hwf) as Hwf'.
  assert (Hal : aligned_at key s -> sel = entries_with key s).
  { intros Hal. apply (same_handles_same_nodes (nodes (m_list s))).
    - apply Hwf.
    - intros n Hn. apply (Permutation_in _ (Permutation_sym Hperm)) in Hn.
      unfold entries_with in Hn. apply filter_In in Hn. tauto.
    - intros n Hn. unfold entries_with in Hn. apply filter_In in Hn. tauto.
    - now rewrite Hfst. }
  exists sel, (restrict (fun e => negb (has_key key e)) s).
  split_all; try assumption.
  - intros Hreach. apply Hal. now apply reachable_aligned.
  - rewrite count_entries by assumption. now rewrite entries_with_restrict.
  - reflexivity.
Qed.

End Extract.

(** ** C5: update *)

Section Update.

Context {K V : Type} `{KeyOrder K}.

Local Abbreviation node := (@node K V).
Local Abbreviation ordered_multimap_t := (@ordered_multimap_t K V).

(** C5, amended. On a well-formed container: if no entry has the key,
    [update(key, v)] is [insert(key, v)], which appends the entry and
    returns its iterator.  Otherwise it overwrites the value of every entry
    with the key and nothing else (handles, keys, positions and the table
    are as before, so every count is as before) and returns the iterator
    the index lists first for the key; that is the first entry with the key
    in sequence order whenever the index lists the key's entries in
    sequence order, as it does in every state reached without [sort]. *)
Theorem update_spec (key : K) (value : V) (s : ordered_multimap_t) :
  wf s ->
  (entries_with key s = [] ->
     update key value s = Some (insert key value s) /\
     to_vector (snd (insert key value s)) = to_vector s ++ [(key, value)] /\
     list_deref (m_list (snd (insert key value s))) (fst (insert key value s))
       = Some (key, value)) /\
  (entries_with key s <> [] ->
     exists h0 s',
       update key value s = Some (It h0, s') /\
       hd_error (indexed_with key s) = Some h0 /\
       (aligned_at key s -> It h0 = first_of (entries_with key s)) /\
       (reachable false s -> It h0 = first_of (entries_with key s)) /\
       nodes (m_list s') =
         map (fun n => if key_eqb (node_key n) key
                       then (fst n, (node_key n, value)) else n)
             (nodes (m_list s)) /\
       m_table s' = m_table s /\
       keys s' = keys s /\
       (forall key', count key' s' = count key' s)).
Proof.
  intros Hwf. split.
  - intros Hnone. split; [|split].
    + apply update_absent; [apply Hwf|].
      destruct (indexed_with_nodes key s Hwf) as (sel & Hperm & _ & Htab).
      rewrite Hnone in Hperm. apply Permutation_nil in Hperm. now subst sel.
    + pose proof (append_entry_spec (key, value) s Hwf) as Hspec.
      unfold insert. destruct (append_entry (key, value) s). apply Hspec.
    + pose proof (append_entry_spec (key, value) s Hwf) as Hspec.
      unfold insert. destruct (append_entry (key, value) s). apply Hspec.
  - intros Hsome.
    destruct (indexed_with_nodes key s Hwf) as (sel & Hperm & Hfst & _).
    destruct sel as [|[h0 e0] sel].
    { apply Permutation_sym, Permutation_nil in Hperm. contradiction. }
    simpl in Hfst. symmetry in Hfst.
    assert (Hal : aligned_at key s -> It h0 = first_of (entries_with key s)).
    { unfold aligned_at. rewrite Hfst. intros Heq.
      destruct (entries_with key s) as [|[h1 e1] rest]; [discriminate|].
      simpl in Heq. now inversion Heq. }
    exists h0, (revalue key value s).
    split_all.
    + exact (update_present key value s h0 _ Hwf Hfst).
    + now rewrite Hfst.
    + exact Hal.
    + intros Hreach. apply Hal. now apply reachable_aligned.
    + reflexivity.
    + reflexivity.
    + unfold keys, revalue. cbn [m_list nodes]. rewrite map_map.
      apply map_ext. intros n. now destruct (has_key key (index_entry n)).
    + reflexivity.
Qed.

End Update.

(** ** C1, C2, C6: what the three calls do deliver *)

Section Delivered.

Context {K V : Type} `{KeyOrder K}.

Local Abbreviation ordered_multimap_t := (@ordered_multimap_t K V).

Implicit Types (s : ordered_multimap_t) (key : K) (h : handle).

(** [equal_range] of a key without entries is [[end(), end())]. *)
Lemma equal_range_absent key s :
  wf s -> entries_with key s = [] -> equal_range key s = Some (End, End).
Proof.
  intros Hwf Hnone. unfold equal_range, table_equal_range.
  apply (absent_in_index key s Hwf) in Hnone.
  apply (equal_range_empty key _ (wf_sorted s Hwf)) in Hnone.
  now rewrite Hnone.
Qed.

(** [erase(key)] of a key without entries changes nothing and returns
    [end()]. *)
Lemma erase_key_absent key s :
  wf s -> entries_with key s = [] -> erase_key key s = Some (End, s).
Proof.
  intros Hwf Hnone. unfold erase_key, table_equal_range.
  apply (absent_in_index key s Hwf) in Hnone.
  apply (equal_range_empty key _ (wf_sorted s Hwf)) in Hnone.
  now rewrite Hnone.
Qed.

(** [erase(it)] through the iterator of a live entry removes one entry:
    the one the index lists first for the key of [*it]; it returns the
    iterator that followed [it]. *)
Lemma erase_it_first_of_key h (e : list_entry_t) s :
  wf s -> In (h, e) (nodes (m_list s)) ->
  exists h0 rest next s',
    erase_it (It h) s = Some (next, s') /\
    indexed_with (fst e) s = h0 :: rest /\
    list_next (m_list s) (It h) = Some next /\
    nodes (m_list s') = filter (other_than h0) (nodes (m_list s)) /\
    wf s'.
Proof.
  intros Hwf Hin.
  destruct (erase_it_defined h e s Hwf Hin) as (next & s' & Hop).
  destruct (erase_it_state (It h) next s s' Hwf Hop)
    as (h1 & k & v & h0 & rest & Heq & Hin' & Hidx & Hnext & ->).
  inversion Heq; subst h1.
  assert (He : (h, (k, v)) = (h, e)).
  { apply (NoDup_map_In_eq fst (nodes (m_list s))); auto. apply Hwf. }
  inversion He; subst e.
  exists h0, rest, next, (restrict (fun x => negb (refers_to h0 x)) s).
  split_all; try assumption; [reflexivity|now apply wf_restrict].
Qed.

End Delivered.

(** * The test suite's containers, replayed *)

Section Scenarios.

Import String.StringSyntax.
Local Open Scope string_scope.
Local Open Scope Z_scope.

(** Solves [reachable sorting s] for a container written as a chain of
    [inserted] and [sort] calls. *)
Ltac by_calls :=
  repeat first
    [ apply reach_new
    | apply reach_insert
    | apply reach_sort; [reflexivity|] ].

(** *** Assertions of the test suite, replayed on the model *)

Example test_insertion_and_order :
  forward table_abac = Some [("a", 1); ("b", 2); ("a", 3); ("c", 4)].
Proof. reflexivity. Qed.

Example test_find_and_erase_by_iterator :
  find "b" table_abbc = Some (It 1%nat) /\
  exists r s',
    erase_it (It 1%nat) table_abbc = Some (r, s') /\
    to_vector s' = [("a", 1); ("b", 3); ("c", 4)].
Proof. split; [reflexivity|]. eexists _, _. vm_compute. auto. Qed.

Example test_sort_ascending_and_descending :
  let t := inserted "a" 4 (inserted "b" 2 (inserted "a" 1 (inserted "c" 3 empty))) in
  let ascending := sort (fun l r => String.ltb (fst l) (fst r)) t in
  let descending := sort (fun l r => String.ltb (fst r) (fst l)) ascending in
  to_vector ascending = [("a", 1); ("a", 4); ("b", 2); ("c", 3)] /\
  to_vector descending = [("c", 3); ("b", 2); ("a", 1); ("a", 4)].
Proof. vm_compute. auto. Qed.

Example test_iterator_validity :
  let t := inserted "z" 300 (inserted "y" 200 (inserted "x" 100 empty)) in
  find "y" t = Some (It 1%nat) /\
  list_deref (m_list (sort by_value t)) (It 1%nat) = Some ("y", 200).
Proof. vm_compute. auto. Qed.

Example test_at_index_access :
  let t := inserted "c" 3 (inserted "b" 2 (inserted "a" 1 empty)) in
  list_deref (m_list t) (at_ 1 t) = Some ("b", 2) /\ at_ 999 t = end_ t.
Proof. vm_compute. auto. Qed.

Example test_count :
  let t := inserted "c" 5 (inserted "a" 4 (inserted "b" 3
             (inserted "a" 2 (inserted "a" 1 empty)))) in
  count "a" t = 3%nat /\ count "b" t = 1%nat /\
  count "c" t = 1%nat /\ count "z" t = 0%nat.
Proof. vm_compute. auto. Qed.

Example test_has :
  let t := inserted "y" 13 (inserted "x" 42 empty) in
  has "x" t = true /\ has "y" t = true /\ has "z" t = false /\
  exists r s', erase_key "x" t = Some (r, s') /\ has "x" s' = false.
Proof.
  cbv zeta. split_all; try reflexivity. eexists _, _. vm_compute. auto.
Qed.

Example test_erase_key_value :
  let t := inserted "a" 3 (inserted "a" 2 (inserted "a" 1 empty)) in
  exists s',
    erase_key_value Z.eqb "a" 2 t = Some (1%nat, s') /\
    count "a" s' = 2%nat /\
    to_vector s' = [("a", 1); ("a", 3)] /\
    erase_key_value Z.eqb "a" 999 s' = Some (0%nat, s').
Proof. cbv zeta. eexists. vm_compute. auto. Qed.

Example test_index_of :
  let t := inserted "c" 30 (inserted "b" 20 (inserted "a" 10 empty)) in
  index_of (It 0%nat) t = Some 0%nat /\
  index_of (It 1%nat) t = Some 1%nat /\
  index_of (It 2%nat) t = Some 2%nat.
Proof. vm_compute. auto. Qed.

Example test_merge :
  keys (fst (merge table_ab table_ca)) = ["a"; "b"; "c"; "a"] /\
  count "a" (fst (merge table_ab table_ca)) = 2%nat /\
  size (snd (merge table_ab table_ca)) = 0%nat.
Proof. vm_compute. auto. Qed.

Example test_extract :
  let t := inserted "x" 102 (inserted "x" 101 (inserted "y" 200
             (inserted "x" 100 empty))) in
  exists s',
    extract "x" t = Some ([100; 101; 102], s') /\
    count "x" s' = 0%nat /\ size s' = 1%nat.
Proof. cbv zeta. eexists. vm_compute. auto. Qed.

Example test_update_overwrite :
  let t := inserted "a" 3 (inserted "a" 2 (inserted "a" 1 empty)) in
  exists s',
    update "a" 99 t = Some (It 0%nat, s') /\
    to_vector s' = [("a", 99); ("a", 99); ("a", 99)].
Proof. cbv zeta. eexists. vm_compute. auto. Qed.

Example test_front_and_back :
  let t := inserted "z" 30 (inserted "y" 20 (inserted "x" 10 empty)) in
  list_deref (m_list t) (front t) = Some ("x", 10) /\
  exists it, back t = Some it /\ list_deref (m_list t) it = Some ("z", 30).
Proof. cbv zeta. split; [reflexivity|]. eexists. vm_compute. auto. Qed.

Example test_reverse_iteration :
  let t := inserted "c" 3 (inserted "b" 2 (inserted "a" 1 empty)) in
  option_map (map fst) (backward t) = Some ["c"; "b"; "a"].
Proof. reflexivity. Qed.

(** *** C1: equal_range on the container of test_equal_range

    The range returned for "x" starts at the first "x" and ends after the
    node of the first greater key: it spans x:10 x:11 y:20, so it contains
    an entry with another key and misses x:12. *)
Example equal_range_spans_other_keys :
  equal_range "x" table_xxyx = Some (It 0%nat, It 3%nat) /\
  range_entries table_xxyx (It 0%nat) (It 3%nat)
    = Some [("x", 10); ("x", 11); ("y", 20)] /\
  to_vector table_xxyx = [("x", 10); ("x", 11); ("y", 20); ("x", 12)] /\
  map snd (entries_with "x" table_xxyx) = [("x", 10); ("x", 11); ("x", 12)].
Proof. vm_compute. auto. Qed.

(** *** C2: erase(iterator) on the container of
    test_find_and_erase_by_iterator

    Erasing through the iterator of b:3 removes b:2, the entry the index
    lists first for "b", and returns the iterator of c:4. *)
Example erase_it_removes_first_of_key :
  list_deref (m_list table_abbc) (It 2%nat) = Some ("b", 3) /\
  exists s',
    erase_it (It 2%nat) table_abbc = Some (It 3%nat, s') /\
    to_vector s' = [("a", 1); ("b", 3); ("c", 4)] /\
    list_deref (m_list s') (It 2%nat) = Some ("b", 3) /\
    list_deref (m_list s') (It 1%nat) = None.
Proof. split; [reflexivity|]. eexists. vm_compute. auto. Qed.

(** *** C6: erase(key) on the container of test_erase_by_key

    Erasing "d" returns the iterator of d:2, a node the call has erased;
    the entry after the erased run is e:3, now at [begin()]. *)
Example erase_key_returns_erased_node :
  list_deref (m_list table_dde) (It 1%nat) = Some ("d", 2) /\
  exists s',
    erase_key "d" table_dde = Some (It 1%nat, s') /\
    to_vector s' = [("e", 3)] /\
    begin s' = It 2%nat /\
    list_deref (m_list s') (It 1%nat) = None.
Proof. split; [reflexivity|]. eexists. vm_compute. auto. Qed.

(** *** C4: extract after a sort

    On x:1 x:2 y:3 (sorted by value) [extract("x")] returns 2, 1, while a
    loop over [equal_range("x")] sees 2, 3 and the values of the "x"
    entries in sequence order are 1, 2. *)
Lemma extract_order_counterexample :
  (exists s', extract "x" table_sorted = Some ([2; 1], s')) /\
  equal_range_values "x" table_sorted = Some [2; 3] /\
  map node_value (entries_with "x" table_sorted) = [1; 2] /\
  ~ extract_as_equal_range "x" table_sorted /\
  ~ extract_in_sequence_order "x" table_sorted.
Proof.
  split; [eexists; vm_compute; reflexivity|].
  split; [vm_compute; reflexivity|].
  split; [vm_compute; reflexivity|].
  split.
  - intros (vals & s' & Hex & Heq & _). vm_compute in Hex, Heq. congruence.
  - intros (vals & s' & Hex & Heq). vm_compute in Hex, Heq. congruence.
Qed.

(** *** C5: update after a sort

    On x:1 x:2 y:3 (sorted by value) [update("x", 9)] returns the iterator
    of the node that held x:2, the second "x" in sequence order; the first
    is the node that held x:1. *)
Lemma update_first_counterexample :
  (exists s', update "x" 9 table_sorted = Some (It 0%nat, s')) /\
  first_of (entries_with "x" table_sorted) = It 1%nat /\
  ~ update_returns_first_in_sequence "x" 9 table_sorted.
Proof.
  split; [eexists; vm_compute; reflexivity|].
  split; [vm_compute; reflexivity|].
  intros Hclaim. destruct Hclaim as [s' Hs']; [discriminate|].
  vm_compute in Hs'. congruence.
Qed.

(** ** The theorems at concrete containers *)

Lemma index_correspondence_witness :
  corresponds
    (mk_map (mk_list [(1%nat, ("b", 2)); (3%nat, ("c", 4))] 4%nat)
            [("b", 1%nat); ("c", 3%nat)]).
Proof.
  apply (index_correspondence true).
  apply (reach_erase_key true "a" table_abac (It 1%nat)).
  - unfold table_abac, inserted. by_calls.
  - reflexivity.
Defined.

Lemma extract_spec_witness :
  exists sel s',
    extract "x" table_sorted = Some (map node_value sel, s') /\
    Permutation (entries_with "x" table_sorted) sel /\
    map fst sel = indexed_with "x" table_sorted /\
    (aligned_at "x" table_sorted -> sel = entries_with "x" table_sorted) /\
    (reachable false table_sorted -> sel = entries_with "x" table_sorted) /\
    count "x" s' = 0%nat /\
    nodes (m_list s') =
      filter (fun n => negb (key_eqb (node_key n) "x"))
             (nodes (m_list table_sorted)) /\
    wf s'.
Proof.
  apply extract_spec. apply (reachable_wf true).
  unfold table_sorted, inserted. by_calls.
Defined.

Lemma update_spec_witness :
  exists h0 s',
    update "x" 9 table_sorted = Some (It h0, s') /\
    hd_error (indexed_with "x" table_sorted) = Some h0 /\
    (aligned_at "x" table_sorted ->
       It h0 = first_of (entries_with "x" table_sorted)) /\
    (reachable false table_sorted ->
       It h0 = first_of (entries_with "x" table_sorted)) /\
    nodes (m_list s') =
      map (fun n => if key_eqb (node_key n) "x"
                    then (fst n, (node_key n, 9)) else n)
          (nodes (m_list table_sorted)) /\
    m_table s' = m_table table_sorted /\
    keys s' = keys table_sorted /\
    (forall key', count key' s' = count key' table_sorted).
Proof.
  assert (Hwf : wf table_sorted).
  { apply (reachable_wf true). unfold table_sorted, inserted. by_calls. }
  apply (proj2 (update_spec "x" 9 table_sorted Hwf)). discriminate.
Defined.

Lemma erase_key_complete_witness :
  exists next s',
    erase_key "a" table_abac = Some (next, s') /\
    count "a" s' = 0%nat /\
    has "a" s' = false /\
    nodes (m_list s') =
      filter (fun n => negb (key_eqb (node_key n) "a"))
             (nodes (m_list table_abac)) /\
    to_vector s' =
      filter (fun e => negb (key_eqb (fst e) "a")) (to_vector table_abac) /\
    wf s'.
Proof.
  apply erase_key_complete. apply (reachable_wf true).
  unfold table_abac, inserted. by_calls.
Defined.

Lemma merge_appends_witness :
  to_vector (fst (merge table_ab table_ca))
    = [("a", 1); ("b", 2); ("c", 3); ("a", 4)] /\
  size (snd (merge table_ab table_ca)) = 0%nat.
Proof.
  assert (Ha : wf table_ab).
  { apply (reachable_wf true). unfold table_ab, inserted. by_calls. }
  assert (Hb : wf table_ca).
  { apply (reachable_wf true). unfold table_ca, inserted. by_calls. }
  destruct (merge_appends table_ab table_ca Ha Hb)
    as (Hvec & _ & _ & _ & Hsize & _).
  split; [exact Hvec|exact Hsize].
Defined.

Lemma front_empty_is_end_witness :
  size (@empty String.string Z) = 0%nat /\
  front (@empty String.string Z) = end_ (@empty String.string Z).
Proof. split; [reflexivity|]. apply front_empty_is_end. reflexivity. Defined.

End Scenarios.

(** * Further properties of the container *)

(** ** Lookup: find, has, count *)

Section Lookup.

Context {K V : Type} `{KeyOrder K}.

Local Abbreviation node := (@node K V).
Local Abbreviation ordered_multimap_t := (@ordered_multimap_t K V).

Implicit Types (s : ordered_multimap_t) (key : K) (h : handle).

(** The node the index lists first for a key that has entries. *)
Lemma first_indexed key s :
  wf s -> entries_with key s <> [] ->
  exists h v rest,
    filter (has_key key) (m_table s) = (key, h) :: rest /\
    In (h, (key, v)) (nodes (m_list s)).
Proof.
  intros Hwf Hsome.
  destruct (indexed_with_nodes key s Hwf) as (sel & Hperm & _ & Htab).
  destruct sel as [|[h [k v]] sel].
  { apply Permutation_sym, Permutation_nil in Hperm. contradiction. }
  assert (Hin : In (h, (k, v)) (entries_with key s)).
  { apply (Permutation_in _ (Permutation_sym Hperm)). now left. }
  unfold entries_with in Hin. apply filter_In in Hin. destruct Hin as [Hin Hk].
  apply has_key_eq in Hk. unfold index_entry, node_key in Hk. simpl in Hk.
  subst k. exists h, v, (map index_entry sel). split; [exact Htab|exact Hin].
Qed.

(** X1. On a well-formed container [find(key)] never fails: it is [end()]
    when no entry has the key; otherwise it is the iterator of an entry
    with that key, the one the index lists first, which is the first such
    entry in sequence order whenever the index lists the key's entries in
    sequence order (as in every state reached without [sort]). *)
Theorem find_spec key s :
  wf s ->
  (entries_with key s = [] -> find key s = Some End) /\
  (entries_with key s <> [] ->
     exists h v,
       find key s = Some (It h) /\
       list_deref (m_list s) (It h) = Some (key, v) /\
       hd_error (indexed_with key s) = Some h /\
       (aligned_at key s -> It h = first_of (entries_with key s)) /\
       (reachable false s -> It h = first_of (entries_with key s))).
Proof.
  intros Hwf. pose proof (wf_sorted s Hwf) as Hso. split.
  - intros Hnone. unfold find.
    rewrite (table_find_absent key _ Hso (absent_in_index key s Hwf Hnone)).
    now rewrite Nat.eqb_refl.
  - intros Hsome.
    destruct (first_indexed key s Hwf Hsome) as (h & v & rest & Hf & Hin).
    destruct (table_find_first key _ _ _ Hso Hf) as [Hfind Hlt].
    assert (Hal : aligned_at key s -> It h = first_of (entries_with key s)).
    { unfold aligned_at, indexed_with. rewrite Hf. simpl. intros Heq.
      destruct (entries_with key s) as [|[h1 e1] l]; [discriminate|].
      simpl in Heq. now inversion Heq. }
    exists h, v. split_all.
    + unfold find. rewrite Hfind.
      apply Nat.lt_neq in Hlt. apply Nat.eqb_neq in Hlt. rewrite Hlt.
      unfold table_handle.
      now rewrite (lower_bound_first key _ _ _ Hso Hf).
    + simpl. apply lookup_node_In; [apply Hwf|assumption].
    + unfold indexed_with. now rewrite Hf.
    + exact Hal.
    + intros Hreach. apply Hal. now apply reachable_aligned.
Qed.

Lemma has_present key s :
  wf s -> entries_with key s <> [] -> has key s = true.
Proof.
  intros Hwf Hsome.
  destruct (first_indexed key s Hwf Hsome) as (h & v & rest & Hf & _).
  destruct (table_find_first key _ _ _ (wf_sorted s Hwf) Hf) as [Hfind Hlt].
  unfold has. rewrite Hfind.
  apply Nat.lt_neq in Hlt. apply Nat.eqb_neq in Hlt. now rewrite Hlt.
Qed.

Lemma entries_with_keys key s :
  map node_key (entries_with key s) =
  filter (fun k => key_eqb k key) (keys s).
Proof. unfold entries_with, keys. now rewrite map_filter. Qed.

(** X2. On a well-formed container the three lookups agree with each other
    and with the keys in the list: [has(key)] holds exactly when
    [count(key)] is not 0, exactly when the key is among [keys()], and
    exactly when [find(key)] is not [end()]; [count(key)] is the number of
    occurrences of the key in [keys()]. *)
Theorem lookups_agree key s :
  wf s ->
  has key s = negb (count key s =? 0) /\
  (has key s = true <-> In key (keys s)) /\
  count key s = length (filter (fun k => key_eqb k key) (keys s)) /\
  (has key s = false <-> find key s = Some End).
Proof.
  intros Hwf.
  assert (Hcount : count key s
                   = length (filter (fun k => key_eqb k key) (keys s))).
  { rewrite count_entries by assumption.
    now rewrite <- entries_with_keys, length_map. }
  assert (Hin : In key (keys s) <-> entries_with key s <> []).
  { split.
    - intros Hk. unfold keys in Hk. apply in_map_iff in Hk.
      destruct Hk as [n [Hn Hin]]. intros Hnone.
      assert (Hn' : In n (entries_with key s)).
      { apply filter_In. split; [assumption|]. apply has_key_eq.
        exact Hn. }
      rewrite Hnone in Hn'. contradiction.
    - intros Hsome. destruct (entries_with key s) as [|n l] eqn:He;
        [contradiction|].
      assert (Hn : In n (entries_with key s)) by (rewrite He; now left).
      unfold entries_with in Hn. apply filter_In in Hn. destruct Hn as [Hn Hk].
      apply has_key_eq in Hk. unfold keys. apply in_map_iff. now exists n. }
  split_all.
  - rewrite count_entries by assumption.
    destruct (entries_with key s) as [|n l] eqn:He.
    + now apply has_absent.
    + apply has_present; [assumption|]. rewrite He. discriminate.
  - split.
    + intros Hhas. apply Hin. intros Hnone.
      rewrite (has_absent key s Hwf Hnone) in Hhas. discriminate.
    + intros Hk. apply has_present; [assumption|]. now apply Hin.
  - exact Hcount.
  - unfold has, find. split.
    + intros Hhas. apply negb_false_iff in Hhas. now rewrite Hhas.
    + destruct (table_find key (m_table s) =? length (m_table s));
        [reflexivity|].
      destruct (table_handle (table_find key (m_table s)) (m_table s));
        discriminate.
Qed.

End Lookup.

(** ** Positions: at, index_of, front, back *)

Section Positions.

Context {K V : Type} `{KeyOrder K}.

Local Abbreviation node := (@node K V).
Local Abbreviation ordered_multimap_t := (@ordered_multimap_t K V).

Implicit Types (s : ordered_multimap_t) (h : handle) (it : iterator).

Lemma position_of_nth (ns : list node) :
  NoDup (map fst ns) ->
  forall (i : nat) h (e : list_entry_t),
  nth_error ns i = Some (h, e) -> position_of h ns = Some i.
Proof.
  induction ns as [|[h' e'] ns IH]; intros Hnd i h e Hnth;
    [now destruct i|].
  inversion Hnd as [|? ? Hnotin Hnd']; subst.
  destruct i as [|i]; simpl in *.
  - inversion Hnth; subst. now rewrite Nat.eqb_refl.
  - destruct (Nat.eqb_spec h h') as [->|Hne].
    + exfalso. apply Hnotin. apply nth_error_In in Hnth.
      apply in_map_iff. now exists (h', e).
    + now rewrite (IH Hnd' i h e Hnth).
Qed.

Lemma position_of_Some (ns : list node) h :
  forall i, position_of h ns = Some i ->
  exists e : list_entry_t, nth_error ns i = Some (h, e).
Proof.
  induction ns as [|[h' e'] ns IH]; simpl; intros i Hpos; [discriminate|].
  destruct (Nat.eqb_spec h h') as [->|Hne].
  - inversion Hpos; subst. now exists e'.
  - destruct (position_of h ns) as [j|]; simpl in Hpos; [|discriminate].
    inversion Hpos; subst. simpl. now apply IH.
Qed.

Lemma position_of_None (ns : list node) h :
  position_of h ns = None <-> lookup_node h ns = None.
Proof.
  induction ns as [|[h' e'] ns IH]; simpl; [tauto|].
  destruct (Nat.eqb_spec h h') as [->|Hne].
  - split; discriminate.
  - rewrite <- IH. destruct (position_of h ns); simpl; split;
      congruence.
Qed.

(** X3. On a well-formed container [at(position)] for a position below
    [size()] is the iterator of the entry at that offset of the sequence,
    and [index_of] gives the position back; for any position from [size()]
    on it is [end()], whose index is [size()]. *)
Theorem at_spec (position : nat) s :
  wf s ->
  (position < size s ->
     exists h,
       at_ position s = It h /\
       list_deref (m_list s) (at_ position s)
         = nth_error (to_vector s) position /\
       index_of (at_ position s) s = Some position) /\
  (size s <= position -> at_ position s = end_ s) /\
  index_of (end_ s) s = Some (size s).
Proof.
  intros Hwf. unfold at_, size, list_size, list_advance, index_of, end_.
  split_all.
  - intros Hlt. rewrite Nat.min_l by lia.
    destruct (nth_error (nodes (m_list s)) position) as [[h e]|] eqn:Hnth.
    + exists h. split_all; [reflexivity| |].
      * transitivity (Some e);
          [|symmetry; exact (map_nth_error snd _ _ Hnth)].
        simpl. apply lookup_node_In; [apply Hwf|].
        eapply nth_error_In; eassumption.
      * simpl. eapply position_of_nth; [apply Hwf|eassumption].
    + apply nth_error_None in Hnth. lia.
  - intros Hge. rewrite Nat.min_r by lia.
    destruct (nth_error (nodes (m_list s)) (length (nodes (m_list s))))
      as [[h e]|] eqn:Hnth; [|reflexivity].
    assert (Hsome : nth_error (nodes (m_list s)) (length (nodes (m_list s)))
                    <> None) by congruence.
    apply nth_error_Some in Hsome. lia.
  - reflexivity.
Qed.

(** X4. Whenever [index_of(it)] is defined, its result is at most [size()]
    and [at] of it is [it] again; it is undefined exactly for the iterators
    of nodes that are not in the list. *)
Theorem index_of_spec it s :
  (forall i, index_of it s = Some i -> i <= size s /\ at_ i s = it) /\
  (index_of it s = None <->
   it <> End /\ list_deref (m_list s) it = None).
Proof.
  unfold index_of, at_, size, list_size, list_advance, list_distance.
  split.
  - intros i Hidx. destruct it as [h|].
    + destruct (position_of_Some _ h i Hidx) as [e Hnth].
      assert (Hlt : i < length (nodes (m_list s))).
      { apply nth_error_Some. congruence. }
      split; [lia|]. rewrite Nat.min_l by lia. now rewrite Hnth.
    + inversion Hidx; subst. split; [lia|]. rewrite Nat.min_id.
      destruct (nth_error (nodes (m_list s)) (length (nodes (m_list s))))
        as [[h e]|] eqn:Hnth; [|reflexivity].
      assert (Hsome : nth_error (nodes (m_list s)) (length (nodes (m_list s)))
                      <> None) by congruence.
      apply nth_error_Some in Hsome. lia.
  - destruct it as [h|]; simpl.
    + rewrite position_of_None. split; [intros Hl; split; [discriminate|exact Hl]|tauto].
    + split; [discriminate|]. intros [Hne _]. now contradiction Hne.
Qed.

(** X5. On a well-formed container with at least one entry [front()] is
    the iterator of the first entry and [back()] that of the last one, the
    node before [end()]; on a container without entries [back()] is
    undefined. *)
Theorem front_back_spec s :
  wf s ->
  (size s = 0 -> back s = None) /\
  (forall e rest, to_vector s = e :: rest ->
     list_deref (m_list s) (front s) = Some e) /\
  (forall pre e, to_vector s = pre ++ [e] ->
     exists it,
       back s = Some it /\
       list_deref (m_list s) it = Some e /\
       list_next (m_list s) it = Some End).
Proof.
  intros Hwf. pose proof (wf_handles s Hwf) as Hnd.
  unfold size, list_size, back, front, to_vector, list_begin.
  split_all.
  - intros Hsize. apply length_zero_iff_nil in Hsize. simpl.
    now rewrite Hsize.
  - intros e rest Hvec.
    destruct (nodes (m_list s)) as [|[h e'] ns] eqn:Hns; [discriminate|].
    simpl in Hvec. inversion Hvec; subst. simpl. rewrite Hns. simpl.
    now rewrite Nat.eqb_refl.
  - intros pre e Hvec.
    destruct (nodes (m_list s)) as [|n ns] eqn:Hns.
    { destruct pre; discriminate. }
    destruct (exists_last (l := n :: ns)) as (ns' & [h e'] & Heq);
      [discriminate|].
    rewrite Heq in Hvec, Hnd. rewrite map_app in Hvec. simpl in Hvec.
    apply app_inj_tail in Hvec. destruct Hvec as [_ ->].
    destruct (NoDup_split_handle ns' [] h e Hnd) as [Hpre _].
    exists (It h). simpl. rewrite Hns, Heq. split_all.
    + apply last_node_snoc.
    + now apply lookup_node_middle.
    + exact (node_after_middle ns' [] h e Hpre).
Qed.

End Positions.

(** ** Sorting *)

Section Sorting.

Context {K V : Type} `{KeyOrder K}.

Local Abbreviation node := (@node K V).
Local Abbreviation ordered_multimap_t := (@ordered_multimap_t K V).
Local Abbreviation sort_function_t := (@sort_function_t K V).
Local Abbreviation list_entry_t := (@list_entry_t K V).

Implicit Types (s : ordered_multimap_t) (f : sort_function_t) (h : handle).

Lemma lookup_node_perm h (l l' : list node) :
  NoDup (map fst l) -> Permutation l l' ->
  lookup_node h l = lookup_node h l'.
Proof.
  intros Hnd Hperm.
  assert (Hnd' : NoDup (map fst l')).
  { eapply Permutation_NoDup; [apply Permutation_map, Hperm|assumption]. }
  destruct (lookup_node h l) as [e|] eqn:Hl.
  - symmetry. apply lookup_node_In; [assumption|].
    apply (Permutation_in _ Hperm). now apply lookup_node_Some.
  - destruct (lookup_node h l') as [e|] eqn:Hl'; [|reflexivity].
    apply lookup_node_Some in Hl'.
    apply (Permutation_in _ (Permutation_sym Hperm)) in Hl'.
    rewrite (lookup_node_In h e l Hnd Hl') in Hl. discriminate.
Qed.

(** X6. On a well-formed container [sort(fun)], whatever the comparator,
    only reorders: the entries afterwards are a permutation of the entries
    before, every iterator still refers to the entry it referred to, and
    the index is untouched, so [find], [count] and [has] answer as before;
    the result is well-formed. *)
Theorem sort_keeps_entries f s :
  wf s ->
  Permutation (to_vector s) (to_vector (sort f s)) /\
  (forall it, list_deref (m_list (sort f s)) it = list_deref (m_list s) it) /\
  size (sort f s) = size s /\
  (forall key,
     find key (sort f s) = find key s /\
     count key (sort f s) = count key s /\
     has key (sort f s) = has key s) /\
  wf (sort f s).
Proof.
  intros Hwf.
  pose proof (sort_nodes_perm f (nodes (m_list s))) as Hperm.
  split_all.
  - unfold to_vector. simpl. now apply Permutation_map.
  - intros [h|]; [|reflexivity]. simpl. symmetry.
    apply lookup_node_perm; [apply Hwf|assumption].
  - unfold size, list_size. simpl. symmetry. now apply Permutation_length.
  - intros key. split_all; reflexivity.
  - now apply wf_sort.
Qed.

Section WithOrder.

Variable f : sort_function_t.
Hypothesis Hf : strict_weak_order f.

Lemma sort_place_sorted (x : node) (ns : list node) :
  sorted_by f ns -> sorted_by f (sort_place f x ns).
Proof.
  unfold sorted_by. induction 1 as [|y ns Hs IH Hall]; simpl.
  - constructor; constructor.
  - destruct (f (snd y) (snd x)) eqn:Hyx.
    + constructor; [assumption|].
      eapply Permutation_Forall; [apply sort_place_perm|].
      constructor; [|assumption]. now apply (swo_asym f Hf).
    + constructor; [now constructor|].
      constructor; [assumption|].
      eapply Forall_impl; [|exact Hall]. intros z Hz. simpl in *.
      exact (swo_negtrans f Hf _ _ _ Hz Hyx).
Qed.

Lemma sort_nodes_sorted (ns : list node) : sorted_by f (sort_nodes f ns).
Proof.
  induction ns as [|x ns IH]; simpl; [constructor|].
  now apply sort_place_sorted.
Qed.

Lemma sort_place_equivalent (z : list_entry_t) (x : node) (ns : list node) :
  filter (fun n => equivalent f z (snd n)) (sort_place f x ns) =
  filter (fun n => equivalent f z (snd n)) (x :: ns).
Proof.
  induction ns as [|y ns IH]; [reflexivity|].
  cbn [sort_place]. destruct (f (snd y) (snd x)) eqn:Hyx; [|reflexivity].
  cbn [filter] in *. rewrite IH.
  destruct (equivalent f z (snd y)) eqn:Hzy;
    destruct (equivalent f z (snd x)) eqn:Hzx; try reflexivity.
  exfalso. unfold equivalent in Hzy, Hzx.
  apply andb_true_iff in Hzy, Hzx.
  destruct Hzy as [_ Hyz], Hzx as [Hzx _].
  apply negb_true_iff in Hyz, Hzx.
  rewrite (swo_negtrans f Hf _ _ _ Hyz Hzx) in Hyx. discriminate.
Qed.

Lemma sort_nodes_equivalent (z : list_entry_t) (ns : list node) :
  filter (fun n => equivalent f z (snd n)) (sort_nodes f ns) =
  filter (fun n => equivalent f z (snd n)) ns.
Proof.
  induction ns as [|x ns IH]; [reflexivity|].
  cbn [sort_nodes]. rewrite sort_place_equivalent. cbn [filter].
  now rewrite IH.
Qed.

End WithOrder.

(** X7. With a comparator that is a strict weak ordering, after
    [sort(fun)] no entry is followed by one the comparator puts before it,
    and the sort is stable: entries the comparator does not tell apart keep
    their relative order. *)
Theorem sort_sorted_stable f s :
  strict_weak_order f ->
  sorted_by f (nodes (m_list (sort f s))) /\
  forall z : list_entry_t,
    filter (fun n => equivalent f z (snd n)) (nodes (m_list (sort f s))) =
    filter (fun n => equivalent f z (snd n)) (nodes (m_list s)).
Proof.
  intros Hf. split.
  - now apply sort_nodes_sorted.
  - intros z. now apply sort_nodes_equivalent.
Qed.

End Sorting.

(** ** Removal: erase(key, value), erase(find(key)), sizes *)

Section Removal.

Context {K V : Type} `{KeyOrder K}.

Local Abbreviation node := (@node K V).
Local Abbreviation ordered_multimap_t := (@ordered_multimap_t K V).

Implicit Types (s : ordered_multimap_t) (key : K) (h : handle).

Lemma filter_other_than_length h (ns : list node) :
  NoDup (map fst ns) -> In h (map fst ns) ->
  S (length (filter (other_than h) ns)) = length ns.
Proof.
  induction ns as [|[h' e] ns IH]; simpl; intros Hnd Hin; [contradiction|].
  inversion Hnd as [|? ? Hnotin Hnd']; subst.
  unfold other_than at 1. simpl.
  destruct (Nat.eqb_spec h' h) as [->|Hne]; simpl.
  - now rewrite filter_other_than_absent.
  - destruct Hin as [Heq|Hin]; [congruence|]. now rewrite IH.
Qed.

Lemma filter_split_length (A : Type) (p : A -> bool) (l : list A) :
  length (filter p l) + length (filter (fun x => negb (p x)) l) = length l.
Proof.
  induction l as [|x l IH]; simpl; [reflexivity|].
  destruct (p x); simpl; lia.
Qed.

(** The sizes before and after dropping the node of one live handle. *)
Lemma restrict_handle_sizes key h (v : V) s :
  wf s -> In (h, (key, v)) (nodes (m_list s)) ->
  S (size (restrict (fun x => negb (refers_to h x)) s)) = size s /\
  S (count key (restrict (fun x => negb (refers_to h x)) s)) = count key s.
Proof.
  intros Hwf Hin.
  pose proof (wf_restrict (fun x => negb (refers_to h x)) s Hwf) as Hwf'.
  split.
  - unfold size, list_size. apply filter_other_than_length; [apply Hwf|].
    apply in_map_iff. now exists (h, (key, v)).
  - rewrite !count_entries by assumption.
    unfold entries_with at 1. unfold restrict. cbn [m_list nodes].
    rewrite filter_filter,
      (filter_ext _ (fun n => has_key key (index_entry n) && other_than h n))
      by (intros; apply andb_comm).
    rewrite <- filter_filter. fold (entries_with key s).
    apply filter_other_than_length.
    + apply NoDup_map_filter, Hwf.
    + apply in_map_iff. exists (h, (key, v)). split; [reflexivity|].
      apply filter_In. split; [assumption|]. apply key_eqb_refl.
Qed.

(** The entry behind a handle the index lists for a key. *)
Lemma indexed_with_entry key h s :
  wf s -> In h (indexed_with key s) ->
  exists v, In (h, (key, v)) (nodes (m_list s)).
Proof.
  intros Hwf Hin. unfold indexed_with in Hin. apply in_map_iff in Hin.
  destruct Hin as [[k' h'] [Heq Hin]]. simpl in Heq. subst h'.
  apply filter_In in Hin. destruct Hin as [Hin Hk].
  apply has_key_eq in Hk. simpl in Hk. subst k'.
  now apply wf_index_In.
Qed.

Lemma entries_with_indexed key (n : node) s :
  wf s -> In n (entries_with key s) -> In (fst n) (indexed_with key s).
Proof.
  intros Hwf Hin. unfold entries_with in Hin. apply filter_In in Hin.
  destruct Hin as [Hin Hk]. unfold indexed_with. apply in_map_iff.
  exists (index_entry n). split; [reflexivity|].
  apply filter_In. split; [now apply wf_node_In|assumption].
Qed.

(** What the loop of [erase(key, value)] finds: no handle whose value
    matches, or the first one that does. *)
Lemma erase_value_loop_first (value_eq : V -> V -> bool) (v : V) s :
  wf s ->
  forall (hs : list handle) (i : nat),
  (forall j h, nth_error hs j = Some h ->
               exists k, nth_error (m_table s) (i + j) = Some (k, h)) ->
  (erase_value_loop value_eq v hs i s = Some (0, s) /\
   Forall (fun h => exists e, list_deref (m_list s) (It h) = Some e /\
                              value_eq (snd e) v = false) hs) \/
  (exists pre h post e,
     hs = pre ++ h :: post /\
     Forall (fun h' => exists e', list_deref (m_list s) (It h') = Some e' /\
                                  value_eq (snd e') v = false) pre /\
     list_deref (m_list s) (It h) = Some e /\
     value_eq (snd e) v = true /\
     erase_value_loop value_eq v hs i s =
       Some (1, restrict (fun x => negb (refers_to h x)) s)).
Proof.
  intros Hwf. induction hs as [|h hs IH]; intros i Hpos;
    cbn [erase_value_loop].
  - left. split; [reflexivity|constructor].
  - destruct (Hpos 0 h eq_refl) as [k Hnth]. rewrite Nat.add_0_r in Hnth.
    pose proof (nth_error_In _ _ Hnth) as Hin.
    destruct (wf_index_In s k h Hwf Hin) as [v' Hv'].
    pose proof (lookup_node_In h _ _ (wf_handles s Hwf) Hv') as Hl.
    cbn [list_deref]. rewrite Hl. cbn [bind snd].
    destruct (value_eq v' v) eqn:Hm.
    + right. exists [], h, hs, (k, v').
      destruct (erase_handle_state _ k h s Hwf Hnth) as [Hle Hte].
      rewrite Hle. cbn [bind]. rewrite Hte, restrict_eta.
      split_all; try reflexivity; [constructor|exact Hl|exact Hm].
    + destruct (IH (S i)) as [[Hloop Hall]|Hfound].
      * intros j h' Hj. specialize (Hpos (S j) h' Hj).
        now rewrite Nat.add_succ_r in Hpos.
      * left. split; [assumption|]. constructor; [|assumption].
        exists (k, v'). split; [exact Hl|exact Hm].
      * right. destruct Hfound as (pre & h1 & post & e & -> & Hpre & He & Hm1 & Hloop).
        exists (h :: pre), h1, post, e.
        split_all; try assumption; [reflexivity|].
        constructor; [|assumption]. exists (k, v'). split; [exact Hl|exact Hm].
Qed.

(** X8. On a well-formed container [erase(key, value)] returns 0 and
    changes nothing when no entry with the key has an equal value;
    otherwise it returns 1 and removes exactly one entry, the first in
    index order among the entries with the key whose value is equal: the
    other nodes stay as they are and in order, [size()] and [count(key)]
    drop by one. *)
Theorem erase_key_value_spec (value_eq : V -> V -> bool) key (v : V) s :
  wf s ->
  (Forall (fun n => value_eq (node_value n) v = false) (entries_with key s) ->
     erase_key_value value_eq key v s = Some (0, s)) /\
  (Exists (fun n => value_eq (node_value n) v = true) (entries_with key s) ->
     exists h v' s' pre post,
       erase_key_value value_eq key v s = Some (1, s') /\
       In (h, (key, v')) (nodes (m_list s)) /\
       value_eq v' v = true /\
       indexed_with key s = pre ++ h :: post /\
       Forall (fun h' => exists e', list_deref (m_list s) (It h') = Some e' /\
                                    value_eq (snd e') v = false) pre /\
       nodes (m_list s') = filter (other_than h) (nodes (m_list s)) /\
       S (size s') = size s /\
       S (count key s') = count key s /\
       wf s').
Proof.
  intros Hwf. pose proof (wf_handles s Hwf) as Hnd.
  assert (Hpos : forall j h,
    nth_error (map snd (table_slice (lower_bound key (m_table s))
                                    (upper_bound key (m_table s)) (m_table s))) j
      = Some h ->
    exists k, nth_error (m_table s) (lower_bound key (m_table s) + j)
              = Some (k, h)).
  { intros j h Hj. unfold table_slice in Hj.
    rewrite nth_error_map, nth_error_firstn in Hj.
    destruct (j <? _); [|discriminate].
    rewrite nth_error_skipn in Hj.
    destruct (nth_error (m_table s) (lower_bound key (m_table s) + j))
      as [[k' h']|]; [|discriminate].
    simpl in Hj. inversion Hj; subst. eauto. }
  pose proof (erase_value_loop_first value_eq v s Hwf _ _ Hpos) as Hloop.
  rewrite equal_range_slice in Hloop by apply Hwf.
  fold (indexed_with key s) in Hloop.
  unfold erase_key_value, table_equal_range.
  rewrite equal_range_slice by apply Hwf. fold (indexed_with key s).
  split.
  - intros Hnone. destruct Hloop as [[Hrun _]|Hfound]; [exact Hrun|].
    exfalso. destruct Hfound as (pre & h & post & e & Hhs & _ & He & Hm & _).
    assert (Hh : In h (indexed_with key s)).
    { rewrite Hhs. apply in_or_app. right. now left. }
    destruct (indexed_with_entry key h s Hwf Hh) as [v' Hv'].
    simpl in He. rewrite (lookup_node_In h _ _ Hnd Hv') in He.
    inversion He; subst e. simpl in Hm.
    rewrite Forall_forall in Hnone.
    assert (Hn : In (h, (key, v')) (entries_with key s)).
    { apply filter_In. split; [assumption|]. apply key_eqb_refl. }
    specialize (Hnone _ Hn). unfold node_value in Hnone. simpl in Hnone.
    congruence.
  - intros Hsome. destruct Hloop as [[_ Hall]|Hfound].
    + exfalso. apply Exists_exists in Hsome. destruct Hsome as [n [Hn Hm]].
      pose proof (entries_with_indexed key n s Hwf Hn) as Hh.
      rewrite Forall_forall in Hall. destruct (Hall _ Hh) as [e [He Hme]].
      unfold entries_with in Hn. apply filter_In in Hn. destruct Hn as [Hn _].
      destruct n as [h e']. simpl in He.
      rewrite (lookup_node_In h e' _ Hnd Hn) in He. inversion He; subst e.
      unfold node_value in Hm. simpl in Hm. congruence.
    + destruct Hfound as (pre & h & post & e & Hhs & Hpre & He & Hm & Hrun).
      assert (Hh : In h (indexed_with key s)).
      { rewrite Hhs. apply in_or_app. right. now left. }
      destruct (indexed_with_entry key h s Hwf Hh) as [v' Hv'].
      simpl in He. rewrite (lookup_node_In h _ _ Hnd Hv') in He.
      inversion He; subst e. simpl in Hm.
      destruct (restrict_handle_sizes key h v' s Hwf Hv') as [Hsize Hcount].
      exists h, v', (restrict (fun x => negb (refers_to h x)) s), pre, post.
      split_all; try assumption; [reflexivity|now apply wf_restrict].
Qed.

Lemma find_first_indexed key h s :
  wf s -> find key s = Some (It h) ->
  exists v rest,
    In (h, (key, v)) (nodes (m_list s)) /\
    indexed_with key s = h :: rest.
Proof.
  intros Hwf Hfind. pose proof (wf_sorted s Hwf) as Hso.
  destruct (entries_with key s) as [|n l] eqn:He.
  - unfold find in Hfind.
    rewrite (table_find_absent key _ Hso (absent_in_index key s Hwf He)),
            Nat.eqb_refl in Hfind. discriminate.
  - destruct (first_indexed key s Hwf) as (h0 & v & rest & Hf & Hin).
    { rewrite He. discriminate. }
    destruct (table_find_first key _ _ _ Hso Hf) as [Htf Hlt].
    unfold find in Hfind. rewrite Htf in Hfind.
    apply Nat.lt_neq in Hlt. apply Nat.eqb_neq in Hlt. rewrite Hlt in Hfind.
    unfold table_handle in Hfind.
    rewrite (lower_bound_first key _ _ _ Hso Hf) in Hfind.
    simpl in Hfind. inversion Hfind; subst h0.
    exists v, (map snd rest). split; [assumption|].
    unfold indexed_with. now rewrite Hf.
Qed.

(** X9. On a well-formed container, erasing through the iterator that
    [find(key)] returned removes exactly the entry that iterator refers to
    and returns the iterator that followed it: the other nodes stay as
    they are and in order, [size()] and [count(key)] drop by one. *)
Theorem erase_found key h s :
  wf s -> find key s = Some (It h) ->
  exists next s',
    erase_it (It h) s = Some (next, s') /\
    list_next (m_list s) (It h) = Some next /\
    nodes (m_list s') = filter (other_than h) (nodes (m_list s)) /\
    list_deref (m_list s') (It h) = None /\
    S (size s') = size s /\
    S (count key s') = count key s /\
    wf s'.
Proof.
  intros Hwf Hfind.
  destruct (find_first_indexed key h s Hwf Hfind) as (v & rest & Hin & Hidx).
  destruct (erase_it_defined h (key, v) s Hwf Hin) as (next & s' & Hop).
  destruct (erase_it_state (It h) next s s' Hwf Hop)
    as (h1 & k & v1 & h0 & rest0 & Heq & Hin1 & Hidx0 & Hnext & ->).
  inversion Heq; subst h1.
  assert (He : (h, (k, v1)) = (h, (key, v))).
  { apply (NoDup_map_In_eq fst (nodes (m_list s))); auto. apply Hwf. }
  inversion He; subst k v1. rewrite Hidx in Hidx0. inversion Hidx0; subst h0.
  destruct (restrict_handle_sizes key h v s Hwf Hin) as [Hsize Hcount].
  exists next, (restrict (fun x => negb (refers_to h x)) s).
  split_all; try assumption; try reflexivity.
  - simpl. apply lookup_node_absent. intros Hh. apply in_map_iff in Hh.
    destruct Hh as [n [Hn Hf]]. apply filter_In in Hf. destruct Hf as [_ Hf].
    apply negb_true_iff, Nat.eqb_neq in Hf. contradiction.
  - now apply wf_restrict.
Qed.

(** X10. On a well-formed container whose index lists every key's entries
    in sequence order (every state reached without [sort]), the loop
    [it = begin(); while (it != end()) it = erase(it);] ends after
    [size()] calls of [erase] and leaves the container empty. *)
Theorem erase_all_empties s :
  wf s -> aligned s ->
  exists s',
    erase_all (S (size s)) (begin s) s = Some s' /\
    size s' = 0 /\ m_table s' = [] /\ wf s'.
Proof.
  remember (size s) as n eqn:Hn. revert s Hn.
  induction n as [|n IH]; intros s Hn Hwf Hal.
  - exists s. unfold size, list_size in Hn. symmetry in Hn.
    apply length_zero_iff_nil in Hn.
    assert (Ht : m_table s = []).
    { apply Permutation_nil. rewrite <- (wf_index s Hwf), Hn. reflexivity. }
    unfold begin, list_begin, size, list_size. rewrite Hn. simpl.
    split_all; auto.
  - destruct (nodes (m_list s)) as [|[h e] ns] eqn:Hns;
      [unfold size, list_size in Hn; rewrite Hns in Hn; discriminate|].
    assert (Hin : In (h, e) (nodes (m_list s))) by (rewrite Hns; now left).
    destruct (erase_it_defined h e s Hwf Hin) as (next & s' & Hop).
    destruct (erase_it_state (It h) next s s' Hwf Hop)
      as (h1 & k & v & h0 & rest & Heq & Hin1 & Hidx & Hnext & Hs').
    inversion Heq; subst h1.
    assert (He : (h, (k, v)) = (h, e)).
    { apply (NoDup_map_In_eq fst (nodes (m_list s))); auto. apply Hwf. }
    inversion He; subst e.
    assert (Hh0 : h0 = h).
    { pose proof (Hal k) as Hk. unfold aligned_at in Hk. rewrite Hidx in Hk.
      unfold entries_with in Hk. rewrite Hns in Hk. cbn [filter] in Hk.
      change (has_key k (index_entry (h, (k, v)))) with (key_eqb k k) in Hk.
      rewrite key_eqb_refl in Hk. simpl in Hk. now inversion Hk. }
    subst h0.
    pose proof (wf_handles s Hwf) as Hnd. rewrite Hns in Hnd. simpl in Hnd.
    apply NoDup_cons_iff in Hnd. destruct Hnd as [Hnotin Hnd'].
    assert (Hnodes : nodes (m_list s') = ns).
    { rewrite Hs'. cbn [restrict m_list nodes]. rewrite Hns.
      change (filter (fun n0 => negb (refers_to h (index_entry n0)))
                     ((h, (k, v)) :: ns))
        with (filter (other_than h) ((h, (k, v)) :: ns)).
      cbn [filter]. unfold other_than at 1. simpl. rewrite Nat.eqb_refl.
      simpl. now apply filter_other_than_absent. }
    assert (Hbegin : begin s' = next).
    { simpl in Hnext. rewrite Hns in Hnext. simpl in Hnext.
      rewrite Nat.eqb_refl in Hnext. inversion Hnext.
      unfold begin, list_begin. rewrite Hnodes. reflexivity. }
    destruct (IH s') as (s'' & Hrun & Hsize & Htab & Hwf'').
    + unfold size, list_size in *. rewrite Hnodes. rewrite Hns in Hn.
      simpl in Hn. lia.
    + rewrite Hs'. now apply wf_restrict.
    + rewrite Hs'. now apply aligned_restrict.
    + exists s''. split_all; try assumption.
      unfold begin, list_begin. rewrite Hns.
      change (erase_all (S (S n)) (It h) s)
        with ('(it', s0) <- erase_it (It h) s ;; erase_all (S n) it' s0).
      rewrite Hop. cbn [bind]. rewrite <- Hbegin. exact Hrun.
Qed.

(** X11. On a well-formed container [erase(key)] shrinks [size()] by
    [count(key)], and [extract(key)] returns [count(key)] values and shrinks
    [size()] by as many; for a key without entries [extract] returns the
    empty vector and changes nothing. *)
Theorem removal_sizes key s :
  wf s ->
  (exists next s',
     erase_key key s = Some (next, s') /\
     size s' + count key s = size s) /\
  (exists vals s',
     extract key s = Some (vals, s') /\
     length vals = count key s /\
     size s' + count key s = size s /\
     (count key s = 0 -> vals = [] /\ s' = s)).
Proof.
  intros Hwf.
  assert (Hsize : size (restrict (fun e => negb (has_key key e)) s)
                  + count key s = size s).
  { rewrite count_entries by assumption.
    unfold size, list_size, entries_with. cbn [restrict m_list nodes].
    rewrite Nat.add_comm. apply filter_split_length. }
  split.
  - destruct (erase_key_state key s Hwf) as [next Hst]. eauto.
  - destruct (extract_state key s Hwf) as (sel & Hperm & _ & Hst).
    exists (map node_value sel), (restrict (fun e => negb (has_key key e)) s).
    split_all; try assumption.
    + rewrite length_map, count_entries by assumption.
      symmetry. now apply Permutation_length.
    + intros Hzero. rewrite count_entries in Hzero by assumption.
      apply length_zero_iff_nil in Hzero. split.
      * rewrite Hzero in Hperm. apply Permutation_nil in Hperm. now subst sel.
      * apply restrict_absent; [assumption|]. now apply absent_in_index.
Qed.

End Removal.


(** ** Copies, insertion and the validity of iterators *)

Section Composition.

Context {K V : Type} `{KeyOrder K}.

Local Abbreviation node := (@node K V).
Local Abbreviation ordered_multimap_t := (@ordered_multimap_t K V).
Local Abbreviation list_entry_t := (@list_entry_t K V).

Implicit Types (s this other : ordered_multimap_t) (key : K) (h : handle).

(** The lookups read off the index entries of the key. *)
Lemma find_by_index key s :
  key_sorted (m_table s) ->
  find key s = match filter (has_key key) (m_table s) with
               | [] => Some End
               | e :: _ => Some (It (snd e))
               end.
Proof.
  intros Hso. unfold find.
  destruct (filter (has_key key) (m_table s)) as [|e rest] eqn:Hf.
  - now rewrite (table_find_absent key _ Hso Hf), Nat.eqb_refl.
  - destruct (table_find_first key _ _ _ Hso Hf) as [Htf Hlt].
    rewrite Htf. apply Nat.lt_neq in Hlt. apply Nat.eqb_neq in Hlt.
    rewrite Hlt. unfold table_handle.
    now rewrite (lower_bound_first key _ _ _ Hso Hf).
Qed.

Lemma has_by_index key s :
  key_sorted (m_table s) ->
  has key s = match filter (has_key key) (m_table s) with
              | [] => false
              | _ :: _ => true
              end.
Proof.
  intros Hso. unfold has.
  destruct (filter (has_key key) (m_table s)) as [|e rest] eqn:Hf.
  - now rewrite (table_find_absent key _ Hso Hf), Nat.eqb_refl.
  - destruct (table_find_first key _ _ _ Hso Hf) as [Htf Hlt].
    rewrite Htf. apply Nat.lt_neq in Hlt. apply Nat.eqb_neq in Hlt.
    now rewrite Hlt.
Qed.

Lemma count_by_index key s :
  key_sorted (m_table s) ->
  count key s = length (filter (has_key key) (m_table s)).
Proof.
  intros Hso. unfold count, table_equal_range. now apply equal_range_count.
Qed.

Lemma keys_to_vector s : keys s = map fst (to_vector s).
Proof. unfold keys, to_vector. now rewrite map_map. Qed.

(** X12. A copy, made by the copy constructor or by copy assignment to
    another container, holds the entries of its source in the same order,
    is well-formed, and its index lists every key's entries in sequence
    order, whatever the state of the source (also after a [sort] of the
    source); each key counts in the copy as often as it occurs among the
    keys of the source. *)
Theorem copy_spec other :
  to_vector (copy other) = to_vector other /\
  forward (copy other) = Some (to_vector other) /\
  wf (copy other) /\
  aligned (copy other) /\
  (forall key, count key (copy other)
               = length (filter (fun k => key_eqb k key) (keys other))) /\
  (forall this,
     to_vector (copy_assign this other) = to_vector other /\
     wf (copy_assign this other) /\
     aligned (copy_assign this other)).
Proof.
  assert (Hvec : to_vector (copy other) = to_vector other).
  { unfold copy. now rewrite to_vector_append_all. }
  assert (Hwf : wf (copy other)) by (apply wf_append_all, wf_empty).
  split_all; try assumption.
  - now rewrite forward_to_vector, Hvec.
  - apply aligned_append_all; [apply wf_empty|apply aligned_empty].
  - intros key. rewrite count_entries by assumption.
    transitivity (length (map node_key (entries_with key (copy other))));
      [symmetry; apply length_map|].
    now rewrite entries_with_keys, !keys_to_vector, Hvec.
  - intros this. split_all.
    + unfold copy_assign. now rewrite to_vector_append_all.
    + apply wf_append_all, wf_clear.
    + apply aligned_append_all; [apply wf_clear|apply aligned_clear].
Qed.

(** X13. On a well-formed container, after [insert(key, value)] the key is
    present and counts once more; [find(key)] keeps answering with the
    entry it answered with before, or with the new entry if the key was
    absent; [size()] grows by one and the lookups of every other key are as
    before. *)
Theorem insert_lookup key (value : V) s :
  wf s ->
  has key (snd (insert key value s)) = true /\
  count key (snd (insert key value s)) = S (count key s) /\
  find key (snd (insert key value s))
    = (if has key s then find key s else Some (fst (insert key value s))) /\
  size (snd (insert key value s)) = S (size s) /\
  (forall key', key' <> key ->
     has key' (snd (insert key value s)) = has key' s /\
     count key' (snd (insert key value s)) = count key' s /\
     find key' (snd (insert key value s)) = find key' s).
Proof.
  intros Hwf. pose proof (wf_sorted s Hwf) as Hso.
  pose proof (wf_sorted _ (wf_append_entry (key, value) s Hwf)) as Hso'.
  assert (Hf : forall key',
    filter (has_key key') (m_table (snd (insert key value s))) =
    filter (has_key key') (m_table s)
      ++ (if key_eqb key key' then [(key, fresh (m_list s))] else [])).
  { intros key'. apply (table_insert_has_key key key' _ _ Hso). }
  unfold insert in *.
  split_all.
  - rewrite has_by_index, Hf, key_eqb_refl by assumption.
    now destruct (filter (has_key key) (m_table s)).
  - rewrite !count_by_index, Hf, key_eqb_refl, length_app by assumption.
    simpl. lia.
  - rewrite !find_by_index, has_by_index, Hf, key_eqb_refl by assumption.
    now destruct (filter (has_key key) (m_table s)).
  - unfold size, list_size. simpl. rewrite length_app. simpl. lia.
  - intros key' Hne.
    assert (Hk : key_eqb key key' = false).
    { apply key_eqb_neq. congruence. }
    rewrite !has_by_index, !count_by_index, !find_by_index, Hf, Hk, app_nil_r
      by assumption.
    split_all; reflexivity.
Qed.

Lemma lookup_node_app h (e : list_entry_t) (l l' : list node) :
  lookup_node h l = Some e -> lookup_node h (l ++ l') = Some e.
Proof.
  induction l as [|[h' e'] l IH]; simpl; [discriminate|].
  destruct (h =? h'); auto.
Qed.

Lemma deref_append_all (es : list list_entry_t) :
  forall s it e,
  list_deref (m_list s) it = Some e ->
  list_deref
    (m_list (fold_left (fun s e => snd (append_entry e s)) es s)) it = Some e.
Proof.
  induction es as [|x es IH]; intros s it e Hd; simpl; [assumption|].
  apply IH. destruct it as [h|]; [|discriminate]. simpl in *.
  now apply lookup_node_app.
Qed.

Lemma deref_restrict (p : K * handle -> bool) h (e : list_entry_t) s :
  wf s -> list_deref (m_list s) (It h) = Some e ->
  p (fst e, h) = true ->
  list_deref (m_list (restrict p s)) (It h) = Some e.
Proof.
  intros Hwf Hd Hp. simpl in *. apply lookup_node_Some in Hd.
  apply lookup_node_In.
  - apply NoDup_map_filter, Hwf.
  - apply filter_In. split; assumption.
Qed.

(** X14. Iterators stay valid across calls that do not erase their entry:
    on a well-formed container an iterator that refers to an entry still
    refers to the same entry after [insert], after [merge] of another
    container into this one, and after [erase(key)] or [extract(key)] of a
    different key; after [update] it refers to the entry with its value
    overwritten if the key is the updated one, and to the same entry
    otherwise. *)
Theorem iterators_survive (it : iterator) (e : list_entry_t) s :
  wf s -> list_deref (m_list s) it = Some e ->
  (forall key (value : V),
     list_deref (m_list (snd (insert key value s))) it = Some e) /\
  (forall other,
     list_deref (m_list (fst (merge s other))) it = Some e) /\
  (forall key, key <> fst e ->
     exists next s',
       erase_key key s = Some (next, s') /\
       list_deref (m_list s') it = Some e) /\
  (forall key, key <> fst e ->
     exists vals s',
       extract key s = Some (vals, s') /\
       list_deref (m_list s') it = Some e) /\
  (forall key (value : V),
     exists r s',
       update key value s = Some (r, s') /\
       list_deref (m_list s') it
         = Some (fst e, if key_eqb (fst e) key then value else snd e)).
Proof.
  intros Hwf Hd. destruct it as [h|]; [|discriminate].
  assert (Hkeep : forall key, key <> fst e ->
    list_deref (m_list (restrict (fun x => negb (has_key key x)) s)) (It h)
      = Some e).
  { intros key Hne. apply deref_restrict; try assumption.
    apply negb_true_iff. apply key_eqb_neq. simpl. congruence. }
  split_all.
  - intros key value. simpl in *. now apply lookup_node_app.
  - intros other. unfold merge. cbn [fst]. now apply deref_append_all.
  - intros key Hne. destruct (erase_key_state key s Hwf) as [next Hst].
    exists next, (restrict (fun x => negb (has_key key x)) s). auto.
  - intros key Hne. destruct (extract_state key s Hwf) as (sel & _ & _ & Hst).
    exists (map node_value sel), (restrict (fun x => negb (has_key key x)) s).
    auto.
  - intros key value.
    destruct (indexed_with key s) as [|h0 rest] eqn:Hidx.
    + assert (Hnone : filter (has_key key) (m_table s) = []).
      { unfold indexed_with in Hidx. now apply map_eq_nil in Hidx. }
      rewrite (update_absent key value s (wf_sorted s Hwf) Hnone).
      eexists _, _. split; [reflexivity|].
      assert (Hk : key_eqb (fst e) key = false).
      { apply key_eqb_neq. intros Heq. simpl in Hd.
        apply lookup_node_Some in Hd.
        pose proof (wf_node_In s _ Hwf Hd) as Hin.
        assert (Hin' : In (index_entry (h, e)) (filter (has_key key) (m_table s))).
        { apply filter_In. split; [assumption|]. apply has_key_eq. exact Heq. }
        rewrite Hnone in Hin'. contradiction. }
      rewrite Hk. unfold insert. simpl in *. destruct e as [k v].
      now apply lookup_node_app.
    + rewrite (update_present key value s h0 rest Hwf Hidx).
      eexists _, _. split; [reflexivity|].
      simpl in Hd. apply lookup_node_Some in Hd. simpl.
      apply lookup_node_In.
      * apply (wf_revalue key value s Hwf).
      * apply in_map_iff. exists (h, e). split; [|assumption].
        change (has_key key (index_entry (h, e))) with (key_eqb (fst e) key).
        destruct (key_eqb (fst e) key); [reflexivity|now destruct e].
Qed.

(** X16. On every well-formed container, whatever calls produced it,
    forward iteration yields exactly [to_vector()] and reverse iteration
    its reverse; [keys()] and [values()] are the two components of
    [to_vector()], each of length [size()]. *)
Theorem iteration_order s :
  wf s ->
  forward s = Some (to_vector s) /\
  backward s = Some (rev (to_vector s)) /\
  to_vector s = combine (keys s) (values s) /\
  length (keys s) = size s /\
  length (values s) = size s.
Proof.
  intros Hwf. split_all.
  - now apply forward_to_vector.
  - now apply backward_to_vector.
  - unfold to_vector, keys, values.
    induction (nodes (m_list s)) as [|[h [k v]] ns IH]; simpl;
      [reflexivity|now rewrite <- IH].
  - unfold keys, size, list_size. apply length_map.
  - unfold values, size, list_size. apply length_map.
Qed.

End Composition.

(** ** equal_range on a key that has entries *)

Section EqualRange.

Context {K V : Type} `{KeyOrder K}.

Local Abbreviation node := (@node K V).
Local Abbreviation ordered_multimap_t := (@ordered_multimap_t K V).
Local Abbreviation list_entry_t := (@list_entry_t K V).

Implicit Types (s : ordered_multimap_t) (key : K) (h g : handle).

Lemma iterator_eqb_eq (a b : iterator) : iterator_eqb a b = true -> a = b.
Proof.
  destruct a, b; simpl; try discriminate; [|reflexivity].
  intros Heq. apply Nat.eqb_eq in Heq. now subst.
Qed.

Lemma node_after_In g (x : handle) (ns : list node) :
  node_after g ns = Some (It x) -> In x (map fst ns).
Proof.
  induction ns as [|[h1 e1] ns IH]; simpl; [discriminate|].
  destruct (g =? h1).
  - destruct ns as [|[h2 e2] ns]; intros Heq; inversion Heq; subst.
    right. now left.
  - intros Hg. right. now apply IH.
Qed.

Lemma node_after_inj (ns : list node) :
  NoDup (map fst ns) ->
  forall h g (it : iterator),
  node_after h ns = Some it -> node_after g ns = Some it -> h = g.
Proof.
  induction ns as [|[h1 e1] ns IH]; intros Hnd h g it Hh Hg;
    [discriminate|].
  apply NoDup_cons_iff in Hnd. destruct Hnd as [Hnotin Hnd].
  assert (Hhead : forall a, node_after a ns = Some (first_of ns) -> False).
  { intros a Ha. destruct ns as [|[h2 e2] ns]; [discriminate|].
    simpl in Ha, Hnd. apply NoDup_cons_iff in Hnd. destruct Hnd as [Hn2 _].
    destruct (a =? h2).
    - destruct ns as [|[h3 e3] ns]; inversion Ha; subst.
      apply Hn2. now left.
    - apply node_after_In in Ha. contradiction. }
  simpl in Hh, Hg.
  destruct (Nat.eqb_spec h h1) as [->|Hne1],
           (Nat.eqb_spec g h1) as [->|Hne2].
  - reflexivity.
  - exfalso. inversion Hh; subst. now apply (Hhead g).
  - exfalso. inversion Hg; subst. now apply (Hhead h).
  - now apply (IH Hnd h g it).
Qed.

(** A loop from the first node of [suf] to [last] that ends has visited an
    initial run of [suf], and [last] is the node after that run. *)
Lemma walk_split (fr : handle) (suf : list node) :
  forall (pre : list node) (fuel : nat) (last : iterator)
         (es : list list_entry_t),
  NoDup (map fst (pre ++ suf)) ->
  walk fuel (mk_list (pre ++ suf) fr) (first_of suf) last = Some es ->
  exists a b, suf = a ++ b /\ es = map snd a /\ last = first_of b.
Proof.
  induction suf as [|[h e] suf IH]; intros pre fuel last es Hnd;
    (destruct fuel as [|fuel]; [discriminate|]); cbn [walk].
  - match goal with
    | |- context [iterator_eqb ?x ?y] => destruct (iterator_eqb x y) eqn:Heq
    end; intros Hw.
    + inversion Hw; subst. apply iterator_eqb_eq in Heq.
      exists [], []. split_all; [reflexivity|reflexivity|now symmetry].
    + discriminate.
  - match goal with
    | |- context [iterator_eqb ?x ?y] => destruct (iterator_eqb x y) eqn:Heq
    end.
    + intros Hw. inversion Hw; subst. apply iterator_eqb_eq in Heq.
      exists [], ((h, e) :: suf).
      split_all; [reflexivity|reflexivity|now symmetry].
    + destruct (NoDup_split_handle pre suf h e Hnd) as [Hpre _].
      cbn [first_of list_deref list_next nodes].
      match goal with
      | |- context [lookup_node ?x ?l] =>
          replace (lookup_node x l) with (Some e)
            by (symmetry; exact (lookup_node_middle pre suf h e Hpre))
      end.
      match goal with
      | |- context [node_after ?x ?l] =>
          replace (node_after x l) with (Some (first_of suf))
            by (symmetry; exact (node_after_middle pre suf h e Hpre))
      end.
      cbn [bind].
      specialize (IH (pre ++ [(h, e)]) fuel last).
      rewrite <- app_assoc in IH. cbn [app] in IH.
      match goal with
      | |- context [walk ?n ?l ?x ?y] =>
          destruct (walk n l x y) as [rest|] eqn:Hrest
      end; [|discriminate].
      cbn [bind]. intros Hw. inversion Hw; subst.
      destruct (IH rest Hnd eq_refl) as (a & b & -> & -> & ->).
      exists ((h, e) :: a), b. split_all; reflexivity.
Qed.

Lemma upper_bound_above key (t : @table_t K) (k' : K) (h' : handle) :
  key_sorted t -> nth_error t (upper_bound key t) = Some (k', h') ->
  key_lt key k' = true.
Proof.
  intros Hs. destruct (key_sorted_zones key t Hs) as (a & b & c & -> & Hz).
  rewrite (zones_upper_bound key a b c Hz).
  rewrite app_assoc, nth_error_app2 by (rewrite length_app; lia).
  rewrite length_app, Nat.sub_diag. destruct Hz as (_ & _ & Hc).
  destruct Hc as [|x c' Hx _]; simpl; [discriminate|].
  intros Heq. inversion Heq; subst. exact Hx.
Qed.

Lemma upper_bound_greatest key (t : @table_t K) :
  key_sorted t ->
  (forall k' h', In (k', h') t -> key_lt key k' = false) ->
  upper_bound key t = length t.
Proof.
  intros Hs Hmax. destruct (key_sorted_zones key t Hs) as (a & b & c & -> & Hz).
  rewrite (zones_upper_bound key a b c Hz).
  destruct Hz as (_ & _ & Hc). destruct Hc as [|[k' h'] c' Hx _].
  - rewrite app_nil_r, length_app. reflexivity.
  - exfalso. unfold above in Hx. simpl in Hx.
    rewrite (Hmax k' h') in Hx; [discriminate|].
    apply in_or_app. right. apply in_or_app. right. now left.
Qed.

(** X15. On a well-formed container and a key that has entries,
    [equal_range(key)] never delivers the key's entries: when the key is
    the greatest key of the container the call is undefined (it advances
    [end()]), and whenever the call returns a pair of iterators, a loop
    over that range is undefined or sees a sequence other than the entries
    with the key. *)
Theorem equal_range_never_spans key s :
  wf s -> entries_with key s <> [] ->
  ((forall key', In key' (keys s) -> key_lt key key' = false) ->
     equal_range key s = None) /\
  (forall first last,
     equal_range key s = Some (first, last) ->
     range_entries s first last <> Some (map snd (entries_with key s))).
Proof.
  intros Hwf Hsome. pose proof (wf_sorted s Hwf) as Hso.
  pose proof (wf_handles s Hwf) as Hnd.
  destruct (first_indexed key s Hwf Hsome) as (h0 & v0 & rest & Hf & Hin0).
  assert (Hrange : (lower_bound key (m_table s) =? upper_bound key (m_table s))
                   = false).
  { destruct (lower_bound key (m_table s) =? upper_bound key (m_table s))
      eqn:Hr; [|reflexivity].
    apply (equal_range_empty key _ Hso) in Hr. rewrite Hr in Hf.
    discriminate. }
  pose proof (lower_bound_first key _ _ _ Hso Hf) as Hfirst.
  unfold equal_range, table_equal_range. rewrite Hrange.
  unfold table_handle at 1. rewrite Hfirst. cbn [option_map bind snd].
  split.
  - intros Hmax. rewrite upper_bound_greatest; [|assumption|].
    + now rewrite Nat.eqb_refl.
    + intros k' h' Hin. apply Hmax.
      destruct (wf_index_In s k' h' Hwf Hin) as [v' Hv'].
      unfold keys. apply in_map_iff. now exists (h', (k', v')).
  - intros first last.
    unfold table_handle at 1. rewrite Hfirst. cbn [option_map bind snd].
    match goal with
    | |- context [Nat.eqb ?x ?y] => destruct (Nat.eqb x y)
    end; [discriminate|].
    unfold table_handle.
    match goal with
    | |- context [nth_error ?t ?i] =>
        destruct (nth_error t i) as [[k' h']|] eqn:Hup
    end; [|discriminate].
    cbn [option_map bind snd list_next].
    match goal with
    | |- context [node_after ?x ?l] =>
        destruct (node_after x l) as [e|] eqn:Hafter
    end; [|discriminate].
    cbn [bind]. intros Heq Hwalk. inversion Heq; subst first last. clear Heq.
    pose proof (upper_bound_above key _ k' h' Hso Hup) as Habove.
    destruct (wf_index_In s k' h' Hwf (nth_error_In _ _ Hup)) as [v' Hv'].
    destruct (in_split _ _ Hin0) as (pre & suf & Hnodes).
    unfold range_entries, size, list_size in Hwalk.
    destruct s as [[ns fr] t]. cbn [m_list m_table nodes fresh] in *.
    subst ns.
    change (It h0) with (first_of ((h0, (key, v0)) :: suf)) in Hwalk.
    destruct (walk_split fr _ pre _ _ _ Hnd Hwalk) as (a & b & Hsuf & Hes & He).
    destruct a as [|x a].
    { simpl in Hes. apply map_eq_nil in Hes. contradiction. }
    destruct (exists_last (l := x :: a)) as (a0 & [hl el] & Ha);
      [discriminate|].
    rewrite Ha in Hsuf, Hes. rewrite Hsuf in Hnd, Hafter, Hv'.
    rewrite <- app_assoc in Hnd, Hafter, Hv'. cbn [app] in Hnd, Hafter, Hv'.
    rewrite app_assoc in Hnd, Hafter, Hv'.
    destruct (NoDup_split_handle (pre ++ a0) b hl el Hnd) as [Hl _].
    pose proof (node_after_middle (pre ++ a0) b hl el Hl) as Hlast.
    rewrite <- He in Hlast.
    pose proof (node_after_inj _ Hnd h' hl e Hafter Hlast) as Heq. subst hl.
    assert (Hel : (h', el) = (h', (k', v'))).
    { apply (NoDup_map_In_eq fst ((pre ++ a0) ++ (h', el) :: b)); auto.
      apply in_or_app. right. now left. }
    inversion Hel; subst el.
    match type of Hes with
    | ?l = _ => assert (Hk : In (k', v') l)
    end.
    { rewrite Hes. apply in_map_iff. exists (h', (k', v')).
      split; [reflexivity|]. apply in_or_app. right. now left. }
    apply in_map_iff in Hk.
    destruct Hk as [n [Hn Hin]]. apply filter_In in Hin.
    destruct Hin as [_ Hkey]. apply has_key_eq in Hkey.
    unfold index_entry, node_key in Hkey. rewrite Hn in Hkey.
    simpl in Hkey. subst k'. rewrite key_lt_irrefl in Habove. discriminate.
Qed.

End EqualRange.

(** ** The iterator erase(key) returns *)

Section EraseKeyReturn.

Context {K V : Type} `{KeyOrder K}.

Local Abbreviation node := (@node K V).
Local Abbreviation list_t := (@list_t K V).
Local Abbreviation ordered_multimap_t := (@ordered_multimap_t K V).

Implicit Types (s : ordered_multimap_t) (key : K) (h x : handle).

(** Once [next] is not [end()] the loop of [erase(key)] leaves it alone. *)
Lemma erase_loop_keeps_next (hs : list handle) x :
  forall (l l' : list_t) (next : iterator),
  erase_loop hs (It x) l = Some (next, l') -> next = It x.
Proof.
  induction hs as [|h hs IH]; intros l l' next; cbn [erase_loop iterator_eqb bind].
  - intros Heq. now inversion Heq.
  - destruct (list_erase h l) as [l1|]; cbn [bind]; [|discriminate].
    apply IH.
Qed.

(** X17. On a well-formed container, when the entry that the index lists
    first for the key is followed in the list by another entry,
    [erase(key)] returns the iterator of that following entry, fixed before
    anything is erased: it is valid afterwards if that entry has another
    key, and refers to an erased node if that entry has the key too.  When
    the key has a single entry and it is the last of the list, the call
    returns [end()]. *)
Theorem erase_key_return key h0 (rest : list handle) s :
  wf s -> indexed_with key s = h0 :: rest ->
  (forall x, list_next (m_list s) (It h0) = Some (It x) ->
     exists kx vx s',
       erase_key key s = Some (It x, s') /\
       list_deref (m_list s) (It x) = Some (kx, vx) /\
       (kx <> key -> list_deref (m_list s') (It x) = Some (kx, vx)) /\
       (kx = key -> list_deref (m_list s') (It x) = None)) /\
  (list_next (m_list s) (It h0) = Some End -> rest = [] ->
     exists s', erase_key key s = Some (End, s')).
Proof.
  intros Hwf Hidx. pose proof (wf_sorted s Hwf) as Hso.
  pose proof (wf_handles s Hwf) as Hnd.
  destruct (erase_key_state key s Hwf) as [next Hst].
  assert (Hloop : exists l',
    erase_loop (h0 :: rest) End (m_list s) = Some (next, l')).
  { revert Hst. unfold erase_key, table_equal_range.
    destruct (lower_bound key (m_table s) =? upper_bound key (m_table s))
      eqn:Hrange.
    - apply (equal_range_empty key _ Hso) in Hrange.
      unfold indexed_with in Hidx. rewrite Hrange in Hidx. discriminate.
    - rewrite equal_range_slice by assumption. fold (indexed_with key s).
      rewrite Hidx.
      destruct (erase_loop (h0 :: rest) End (m_list s)) as [[n l']|];
        cbn [bind]; [|discriminate].
      intros Heq. inversion Heq. eexists. reflexivity. }
  destruct Hloop as [l' Hloop]. cbn [erase_loop iterator_eqb] in Hloop.
  split.
  - intros x Hnext. rewrite Hnext in Hloop. cbn [bind] in Hloop.
    destruct (list_erase h0 (m_list s)) as [l1|]; cbn [bind] in Hloop;
      [|discriminate].
    apply erase_loop_keeps_next in Hloop. subst next.
    assert (Hx : In x (map fst (nodes (m_list s)))).
    { simpl in Hnext. now apply (node_after_In h0). }
    apply in_map_iff in Hx. destruct Hx as [[x' [kx vx]] [Heq Hin]].
    simpl in Heq. subst x'.
    exists kx, vx, (restrict (fun e => negb (has_key key e)) s).
    split_all.
    + exact Hst.
    + simpl. now apply lookup_node_In.
    + intros Hne. apply deref_restrict; [assumption| |].
      * simpl. now apply lookup_node_In.
      * apply negb_true_iff. apply key_eqb_neq. exact Hne.
    + intros ->. simpl. apply lookup_node_absent. intros Hx.
      apply in_map_iff in Hx. destruct Hx as [n [Hn Hf]].
      apply filter_In in Hf. destruct Hf as [Hf Hk].
      assert (Hsame : n = (x, (key, vx))).
      { apply (NoDup_map_In_eq fst (nodes (m_list s))); auto. }
      subst n. apply negb_true_iff in Hk.
      change (has_key key (index_entry (x, (key, vx))))
        with (key_eqb key key) in Hk.
      rewrite key_eqb_refl in Hk. discriminate.
  - intros Hnext ->. rewrite Hnext in Hloop. cbn [bind] in Hloop.
    destruct (list_erase h0 (m_list s)) as [l1|]; cbn [bind erase_loop] in Hloop;
      [|discriminate].
    inversion Hloop; subst. eauto.
Qed.

End EraseKeyReturn.

(** ** The further properties at the test suite's containers *)

Section MoreScenarios.

Import String.StringSyntax.
Local Open Scope string_scope.
Local Open Scope Z_scope.

(** Solves [reachable sorting s] for a chain of [inserted] and [sort]. *)
Ltac built :=
  repeat first
    [ apply reach_new
    | apply reach_insert
    | apply reach_sort; [reflexivity|] ].

Lemma by_value_strict_weak_order : strict_weak_order by_value.
Proof.
  split; unfold by_value.
  - intros a b Hab. apply Z.ltb_lt in Hab. apply Z.ltb_ge. lia.
  - intros a b c Hab Hbc. apply Z.ltb_ge in Hab, Hbc. apply Z.ltb_ge. lia.
Qed.

Lemma find_spec_witness :
  exists h v,
    find "x" table_xxyx = Some (It h) /\
    list_deref (m_list table_xxyx) (It h) = Some ("x", v) /\
    hd_error (indexed_with "x" table_xxyx) = Some h /\
    (aligned_at "x" table_xxyx ->
       It h = first_of (entries_with "x" table_xxyx)) /\
    (reachable false table_xxyx ->
       It h = first_of (entries_with "x" table_xxyx)).
Proof.
  assert (Hwf : wf table_xxyx).
  { apply (reachable_wf true). unfold table_xxyx, inserted. built. }
  apply (proj2 (find_spec "x" table_xxyx Hwf)). discriminate.
Defined.

Lemma lookups_agree_witness :
  has "a" table_abac = negb (count "a" table_abac =? 0)%nat /\
  (has "a" table_abac = true <-> In "a" (keys table_abac)) /\
  count "a" table_abac
    = length (filter (fun k => key_eqb k "a") (keys table_abac)) /\
  (has "a" table_abac = false <-> find "a" table_abac = Some End).
Proof.
  apply lookups_agree. apply (reachable_wf true).
  unfold table_abac, inserted. built.
Defined.

Lemma at_spec_witness :
  (exists h,
     at_ 1 table_abac = It h /\
     list_deref (m_list table_abac) (at_ 1 table_abac)
       = nth_error (to_vector table_abac) 1 /\
     index_of (at_ 1 table_abac) table_abac = Some 1%nat) /\
  at_ 999 table_abac = end_ table_abac.
Proof.
  assert (Hwf : wf table_abac).
  { apply (reachable_wf true). unfold table_abac, inserted. built. }
  destruct (at_spec 1 table_abac Hwf) as (Hin & _ & _).
  destruct (at_spec 999 table_abac Hwf) as (_ & Hout & _).
  split; [apply Hin|apply Hout]; vm_compute; lia.
Defined.

Lemma index_of_spec_witness :
  (2 <= size table_abac)%nat /\ at_ 2 table_abac = It 2%nat.
Proof.
  apply (proj1 (index_of_spec (It 2%nat) table_abac) 2%nat). reflexivity.
Defined.

Lemma front_back_spec_witness :
  list_deref (m_list table_abac) (front table_abac) = Some ("a", 1) /\
  exists it,
    back table_abac = Some it /\
    list_deref (m_list table_abac) it = Some ("c", 4) /\
    list_next (m_list table_abac) it = Some End.
Proof.
  assert (Hwf : wf table_abac).
  { apply (reachable_wf true). unfold table_abac, inserted. built. }
  destruct (front_back_spec table_abac Hwf) as (_ & Hfront & Hback).
  split.
  - apply (Hfront ("a", 1) [("b", 2); ("a", 3); ("c", 4)]). reflexivity.
  - apply (Hback [("a", 1); ("b", 2); ("a", 3)] ("c", 4)). reflexivity.
Defined.

Lemma sort_keeps_entries_witness :
  Permutation (to_vector table_abac) (to_vector (sort by_value table_abac)) /\
  (forall it, list_deref (m_list (sort by_value table_abac)) it
              = list_deref (m_list table_abac) it) /\
  size (sort by_value table_abac) = size table_abac /\
  (forall key,
     find key (sort by_value table_abac) = find key table_abac /\
     count key (sort by_value table_abac) = count key table_abac /\
     has key (sort by_value table_abac) = has key table_abac) /\
  wf (sort by_value table_abac).
Proof.
  apply sort_keeps_entries. apply (reachable_wf true).
  unfold table_abac, inserted. built.
Defined.

Lemma sort_sorted_stable_witness :
  sorted_by by_value (nodes (m_list (sort by_value table_xxyx))) /\
  forall z,
    filter (fun n => equivalent by_value z (snd n))
           (nodes (m_list (sort by_value table_xxyx))) =
    filter (fun n => equivalent by_value z (snd n))
           (nodes (m_list table_xxyx)).
Proof. apply sort_sorted_stable. exact by_value_strict_weak_order. Defined.

Lemma erase_key_value_spec_witness :
  exists h v' s' pre post,
    erase_key_value Z.eqb "x" 11 table_xxyx = Some (1%nat, s') /\
    In (h, ("x", v')) (nodes (m_list table_xxyx)) /\
    Z.eqb v' 11 = true /\
    indexed_with "x" table_xxyx = pre ++ h :: post /\
    Forall (fun h' =>
              exists e', list_deref (m_list table_xxyx) (It h') = Some e' /\
                         Z.eqb (snd e') 11 = false) pre /\
    nodes (m_list s') = filter (other_than h) (nodes (m_list table_xxyx)) /\
    S (size s') = size table_xxyx /\
    S (count "x" s') = count "x" table_xxyx /\
    wf s'.
Proof.
  assert (Hwf : wf table_xxyx).
  { apply (reachable_wf true). unfold table_xxyx, inserted. built. }
  apply (proj2 (erase_key_value_spec Z.eqb "x" 11 table_xxyx Hwf)).
  apply Exists_cons_tl, Exists_cons_hd. reflexivity.
Defined.

Lemma erase_found_witness :
  exists next s',
    erase_it (It 1%nat) table_abbc = Some (next, s') /\
    list_next (m_list table_abbc) (It 1%nat) = Some next /\
    nodes (m_list s') = filter (other_than 1%nat) (nodes (m_list table_abbc)) /\
    list_deref (m_list s') (It 1%nat) = None /\
    S (size s') = size table_abbc /\
    S (count "b" s') = count "b" table_abbc /\
    wf s'.
Proof.
  apply erase_found.
  - apply (reachable_wf true). unfold table_abbc, inserted. built.
  - reflexivity.
Defined.

Lemma erase_all_empties_witness :
  exists s',
    erase_all (S (size table_abbc)) (begin table_abbc) table_abbc = Some s' /\
    size s' = 0%nat /\ m_table s' = [] /\ wf s'.
Proof.
  apply erase_all_empties.
  - apply (reachable_wf false). unfold table_abbc, inserted. built.
  - apply reachable_aligned. unfold table_abbc, inserted. built.
Defined.

Lemma removal_sizes_witness :
  (exists next s',
     erase_key "x" table_xxyx = Some (next, s') /\
     (size s' + count "x" table_xxyx = size table_xxyx)%nat) /\
  (exists vals s',
     extract "x" table_xxyx = Some (vals, s') /\
     length vals = count "x" table_xxyx /\
     (size s' + count "x" table_xxyx = size table_xxyx)%nat /\
     (count "x" table_xxyx = 0%nat -> vals = [] /\ s' = table_xxyx)).
Proof.
  apply removal_sizes. apply (reachable_wf true).
  unfold table_xxyx, inserted. built.
Defined.

Lemma insert_lookup_witness :
  has "b" (snd (insert "b" 5 table_abac)) = true /\
  count "b" (snd (insert "b" 5 table_abac)) = S (count "b" table_abac) /\
  find "b" (snd (insert "b" 5 table_abac))
    = (if has "b" table_abac then find "b" table_abac
       else Some (fst (insert "b" 5 table_abac))) /\
  size (snd (insert "b" 5 table_abac)) = S (size table_abac) /\
  (forall key', key' <> "b" ->
     has key' (snd (insert "b" 5 table_abac)) = has key' table_abac /\
     count key' (snd (insert "b" 5 table_abac)) = count key' table_abac /\
     find key' (snd (insert "b" 5 table_abac)) = find key' table_abac).
Proof.
  apply insert_lookup. apply (reachable_wf true).
  unfold table_abac, inserted. built.
Defined.

Lemma iterators_survive_witness :
  (forall key value,
     list_deref (m_list (snd (insert key value table_abac))) (It 1%nat)
       = Some ("b", 2)) /\
  (forall key, key <> "b" ->
     exists next s',
       erase_key key table_abac = Some (next, s') /\
       list_deref (m_list s') (It 1%nat) = Some ("b", 2)).
Proof.
  assert (Hwf : wf table_abac).
  { apply (reachable_wf true). unfold table_abac, inserted. built. }
  destruct (iterators_survive (It 1%nat) ("b", 2) table_abac Hwf eq_refl)
    as (Hins & _ & Hera & _).
  split; [exact Hins|exact Hera].
Defined.

Lemma equal_range_never_spans_witness :
  ((forall key', In key' (keys table_xxyx) -> key_lt "x" key' = false) ->
   equal_range "x" table_xxyx = None) /\
  (forall first last,
     equal_range "x" table_xxyx = Some (first, last) ->
     range_entries table_xxyx first last
       <> Some (map snd (entries_with "x" table_xxyx))).
Proof.
  assert (Hwf : wf table_xxyx).
  { apply (reachable_wf true). unfold table_xxyx, inserted. built. }
  apply (equal_range_never_spans "x" table_xxyx Hwf). discriminate.
Defined.

Lemma iteration_order_witness :
  forward table_sorted = Some (to_vector table_sorted) /\
  backward table_sorted = Some (rev (to_vector table_sorted)) /\
  to_vector table_sorted = combine (keys table_sorted) (values table_sorted) /\
  length (keys table_sorted) = size table_sorted /\
  length (values table_sorted) = size table_sorted.
Proof.
  apply iteration_order. apply (reachable_wf true).
  unfold table_sorted, inserted. built.
Defined.

Lemma erase_key_return_witness :
  exists kx vx s',
    erase_key "d" table_dde = Some (It 1%nat, s') /\
    list_deref (m_list table_dde) (It 1%nat) = Some (kx, vx) /\
    (kx <> "d" -> list_deref (m_list s') (It 1%nat) = Some (kx, vx)) /\
    (kx = "d" -> list_deref (m_list s') (It 1%nat) = None).
Proof.
  assert (Hwf : wf table_dde).
  { apply (reachable_wf true). unfold table_dde, inserted. built. }
  apply (proj1 (erase_key_return "d" 0%nat [1%nat] table_dde Hwf eq_refl)).
  reflexivity.
Defined.

End MoreScenarios.

End ordered_multimap.
